(** * Security-migration notices of the GraphQL API category

    A shallow embedding of
    [packages/amplify-cli/src/extensions/amplify-helpers/auth-notifications.ts]
    and the properties of its directive predicates, of the resolver
    loader and detector, of the schema touch and of the three
    notification policies.

    Conventions.  A JavaScript string is a [string]; each character
    stands for one UTF-16 code unit (the model covers the code units
    below 256).  A JavaScript object used as a dictionary whose
    enumeration order is irrelevant is a [gmap]; where the order of
    [Object.entries] matters it is an association list in enumeration
    order.  A [Set<string>] is a [gset string]. *)

From Stdlib Require Import ZArith String Ascii List Bool Lia.
From stdpp Require Import gmap strings list fin_maps.

Local Open Scope string_scope.
Local Set Warnings "-register-all".

(** ** The GraphQL syntax tree, as far as the predicates read it *)

Module Ast.

(** [ValueNode]: [kind] is the constructor; [value] exists on scalar
    literals only, [fields] on object literals only. *)
Inductive ValueNode :=
| NullValue
| StringValue (value : string)
| EnumValue (value : string)
| IntValue (value : string)
| FloatValue (value : string)
| BooleanValue (value : bool)
| Variable_ (name : string)
| ListValue (values : list ValueNode)
| ObjectValue (fields : list (string * ValueNode)).

(** [ArgumentNode]: [name.value] and [value]. *)
Record ArgumentNode := { arg_name : string; arg_value : ValueNode }.

(** [DirectiveNode]: [name.value] and the optional [arguments]. *)
Record DirectiveNode := {
  dir_name : string;
  dir_arguments : option (list ArgumentNode)
}.

Inductive TypeKind := NamedType | ListType | NonNullType.

(** [FieldDefinitionNode] (or [InputValueDefinitionNode]): [name.value],
    [type.kind] and the optional [directives]. *)
Record FieldDefinitionNode := {
  field_name : string;
  field_type_kind : TypeKind;
  field_directives : option (list DirectiveNode)
}.

(** A top-level definition.  Every definition kind that has [fields]
    (object, interface and input object types and their extensions) has
    a [name]; a schema definition or an anonymous operation has neither,
    only [directives]. *)
Inductive DefinitionNode :=
| NamedDefinition (name : string)
                  (directives : option (list DirectiveNode))
                  (fields : option (list FieldDefinitionNode))
| AnonymousDefinition (directives : option (list DirectiveNode)).

Definition def_directives (def : DefinitionNode) : option (list DirectiveNode) :=
  match def with
  | NamedDefinition _ ds _ => ds
  | AnonymousDefinition ds => ds
  end.

Definition def_fields (def : DefinitionNode) : option (list FieldDefinitionNode) :=
  match def with
  | NamedDefinition _ _ fs => fs
  | AnonymousDefinition _ => None
  end.

Definition def_name (def : DefinitionNode) : option string :=
  match def with
  | NamedDefinition n _ _ => Some n
  | AnonymousDefinition _ => None
  end.

(** [doc.definitions] *)
Definition DocumentNode := list DefinitionNode.

Instance TypeKind_eq_dec : EqDecision TypeKind.
Proof. solve_decision. Defined.

End Ast.

(** ** DirectiveIndexer: the pure predicates over a parsed schema *)

Module Directives.
Import Ast.

(** [x || []] on an optional array. *)
Definition orEmpty {A} (x : option (list A)) : list A := default [] x.

(** [dirs?.some(dir => dir.name.value === n)]; [undefined] is falsy. *)
Definition someNamed (n : string) (dirs : option (list DirectiveNode)) : bool :=
  existsb (fun dir => String.eqb (dir_name dir) n) (orEmpty dirs).

(** The callback of [filter] in [hasFieldAuthDirectives]. *)
Definition fieldWithAuth (field : FieldDefinitionNode) : bool :=
  let nonNullable := bool_decide (field_type_kind field = NonNullType) in
  let hasAuth := someNamed "auth" (field_directives field) in
  hasAuth && nonNullable.

Definition hasFieldAuthDirectives (doc : DocumentNode) : gset string :=
  foldl (fun (haveFieldAuthDir : gset string) def =>
           let withAuth := List.filter fieldWithAuth (orEmpty (def_fields def)) in
           if (0 <? length withAuth)%nat
           then match def_name def with
                | Some name => {[ name ]} ∪ haveFieldAuthDir
                | None => haveFieldAuthDir
                end
           else haveFieldAuthDir)
        ∅ doc.

(** [transformerversion] is the value of
    [FeatureFlags.getNumber('graphqltransformer.transformerversion')]. *)
Definition hasV2AuthDirectives (transformerversion : Z) (doc : DocumentNode) : bool :=
  let usesTransformerV2 := (transformerversion =? 2)%Z in
  let containsAuthDir :=
    foldl (fun (containsAuthDir : bool) def =>
             if someNamed "auth" (def_directives def) then true else containsAuthDir)
          false doc in
  containsAuthDir && usesTransformerV2.

(** [value.value] when it is a string: string, enum, int and float
    literals keep their text there; a boolean literal holds a boolean
    and the other kinds have no [value]. *)
Definition stringValue (value : ValueNode) : option string :=
  match value with
  | StringValue v | EnumValue v | IntValue v | FloatValue v => Some v
  | _ => None
  end.

(** [value.value === 'off'] *)
Definition valueIsOff (value : ValueNode) : bool :=
  match stringValue value with
  | Some v => String.eqb v "off"
  | None => false
  end.

Definition kindIsNull (value : ValueNode) : bool :=
  match value with NullValue => true | _ => false end.

(** [arg.value?.fields?.some(...)]: [fields] exists on object literals. *)
Definition levelFieldOffOrNull (value : ValueNode) : bool :=
  match value with
  | ObjectValue fields =>
      existsb (fun '(name, value) =>
                 String.eqb name "level" && (valueIsOff value || kindIsNull value))
              fields
  | _ => false
  end.

(** The callback of the inner [some]: [undefined] (falsy) for any other
    argument. *)
Definition subscriptionArgOff (arg : ArgumentNode) : bool :=
  if String.eqb (arg_name arg) "subscriptions" then
    let subscriptionNull := kindIsNull (arg_value arg) in
    levelFieldOffOrNull (arg_value arg) || subscriptionNull
  else false.

(** [typeObj.find(dir => dir.name.value === 'model')] *)
Definition findModel (typeObj : list DirectiveNode) : option DirectiveNode :=
  List.find (fun dir => String.eqb (dir_name dir) "model") typeObj.

Definition subscriptionOff (typeObj : list DirectiveNode) : bool :=
  let modelDirective := findModel typeObj in
  existsb subscriptionArgOff
          (orEmpty (match modelDirective with
                    | Some d => dir_arguments d
                    | None => None
                    end)).

Definition displayAuthNotification (transformerversion : Z)
    (directiveMap : gmap string (list DirectiveNode))
    (fieldDirectives : gset string) : bool :=
  let usesTransformerV2 := (transformerversion =? 2)%Z in
  let schemaHasValues :=
    existsb (fun '(typeName, typeObj) =>
               subscriptionOff typeObj && bool_decide (typeName ∈ fieldDirectives))
            (map_to_list directiveMap) in
  schemaHasValues && usesTransformerV2.

End Directives.

(** ** UnsafeResolverDetector: the regular expression and its use *)

Module Resolvers.

(** The class [\s] on the code units below 256: TAB, LF, VT, FF, CR,
    SPACE and NO-BREAK SPACE. *)
Definition isWhiteSpace (c : ascii) : bool :=
  let n := nat_of_ascii c in
  ((9 <=? n) && (n <=? 13) || (n =? 32) || (n =? 160))%nat.

(** The fragment of the pattern language that [listQueryPattern] uses:
    literal text (every escaped character of the source stands for
    itself), [\s*], a negative lookahead [(?!r)] and concatenation. *)
Inductive RegExp :=
| Literal (text : string)
| WhiteSpaceStar
| NegativeLookahead (r : RegExp)
| Concat (r1 r2 : RegExp).

(** The rest of [input] after the literal [text], if it starts with it. *)
Fixpoint matchLiteral (text input : string) : option string :=
  match text, input with
  | EmptyString, _ => Some input
  | String a text', String b input' =>
      if Ascii.eqb a b then matchLiteral text' input' else None
  | String _ _, EmptyString => None
  end.

(** Backtracking matcher in continuation-passing style: [k rest pos]
    matches what follows the pattern on the remaining input [rest],
    which starts at index [pos], and returns the end index of the whole
    match.  The greedy star first tries one more white space and falls
    back to the continuation at the current position. *)
Fixpoint whiteSpaceStar (input : string) (pos : nat)
    (k : string → nat → option nat) : option nat :=
  match input with
  | String c rest =>
      if isWhiteSpace c then
        match whiteSpaceStar rest (S pos) k with
        | Some e => Some e
        | None => k input pos
        end
      else k input pos
  | EmptyString => k input pos
  end.

Fixpoint matchRegExp (r : RegExp) (input : string) (pos : nat)
    (k : string → nat → option nat) : option nat :=
  match r with
  | Literal text =>
      match matchLiteral text input with
      | Some rest => k rest (pos + String.length text)%nat
      | None => None
      end
  | WhiteSpaceStar => whiteSpaceStar input pos k
  | NegativeLookahead r' =>
      match matchRegExp r' input pos (fun _ e => Some e) with
      | Some _ => None
      | None => k input pos
      end
  | Concat r1 r2 =>
      matchRegExp r1 input pos (fun rest p => matchRegExp r2 rest p k)
  end.

(** The search of [RegExpBuiltinExec]: try the pattern at the current
    index, then at the next one, up to the end of the input; the result
    is the end index of the first match. *)
Fixpoint execFrom (r : RegExp) (input : string) (pos : nat) : option nat :=
  match matchRegExp r input pos (fun _ e => Some e) with
  | Some e => Some e
  | None =>
      match input with
      | EmptyString => None
      | String _ rest => execFrom r rest (S pos)
      end
  end.

(** [input] from index [n] on; [None] when [n] is past its end. *)
Fixpoint suffixFrom (n : nat) (input : string) : option string :=
  match n, input with
  | O, _ => Some input
  | S n', String _ rest => suffixFrom n' rest
  | S _, EmptyString => None
  end.

(** [RegExp.prototype.test] of a regular expression with the [g] flag:
    the search starts at the object's [lastIndex]; a match stores its
    end index in [lastIndex], a failure (also when [lastIndex] is past
    the end of the input) stores 0.  The result is the answer and the
    new [lastIndex]. *)
Definition test (r : RegExp) (lastIndex : nat) (input : string) : bool * nat :=
  match suffixFrom lastIndex input with
  | None => (false, 0%nat)
  | Some rest =>
      match execFrom r rest lastIndex with
      | Some e => (true, e)
      | None => (false, 0%nat)
      end
  end.

Definition filterAssignment : string :=
  "#set( $filterExpression = $util.parseJson($util.transform.toDynamoDBFilterExpression($filter)) )".

Definition filterGuard : string :=
  "#if( $util.isNullOrEmpty($filterExpression) )".

(** The source of [listQueryPattern]; its flags are [g] (see [test])
    and [m], which only changes the anchors the pattern does not use. *)
Definition listQueryPattern : RegExp :=
  Concat (Literal filterAssignment)
    (Concat WhiteSpaceStar
       (NegativeLookahead (Concat WhiteSpaceStar (Literal filterGuard)))).

(** [xs.filter(x => re.test(x))] with one regular expression object
    [re]: its [lastIndex] is carried from one call of [test] to the
    next. *)
Fixpoint filterTest (re : RegExp) (lastIndex : nat) (xs : list string) : list string :=
  match xs with
  | [] => []
  | x :: xs' =>
      let '(found, lastIndex') := test re lastIndex x in
      if found then x :: filterTest re lastIndex' xs'
      else filterTest re lastIndex' xs'
  end.

Definition startsWith (s searchString : string) : bool :=
  String.prefix searchString s.

Definition endsWith (s searchString : string) : bool :=
  let n := String.length s in
  let m := String.length searchString in
  if (m <=? n)%nat then String.eqb (String.substring (n - m) m s) searchString
  else false.

(** [resolvers] is [Object.entries(resolvers)], in enumeration order. *)
Definition resolversToCheck (resolvers : list (string * string)) : list string :=
  List.map (fun '(_, resolverCode) => resolverCode)
    (List.filter (fun '(resolverFileName, _) =>
                    startsWith resolverFileName "Query.list"
                    && endsWith resolverFileName ".req.vtl")
                 resolvers).

(** The regular expression literal is evaluated on each call of the
    policy, so the object starts with [lastIndex] 0. *)
Definition resolversToSecure (resolvers : list (string * string)) : list string :=
  filterTest listQueryPattern 0 (resolversToCheck resolvers).

(** *** What the pattern looks for *)

(** The text after the leading white space. *)
Fixpoint skipWhiteSpace (input : string) : string :=
  match input with
  | String c rest => if isWhiteSpace c then skipWhiteSpace rest else input
  | EmptyString => input
  end.

(** The text starts, after white space, with the guard. *)
Definition guardFollows (input : string) : bool :=
  match matchLiteral filterGuard (skipWhiteSpace input) with
  | Some _ => true
  | None => false
  end.

(** Whether a search found a match. *)
Definition found (result : option nat) : bool :=
  match result with Some _ => true | None => false end.

End Resolvers.

(** ** The file system under an API resource directory *)

Module Fs.

(** A promise that resolves with a value or rejects; also a call that
    returns a value or throws. *)
Inductive Result (A : Type) :=
| Resolved (value : A)
| Rejected (error : string).
Arguments Resolved {A} value.
Arguments Rejected {A} error.

(** What [lstat] tells of a directory entry: a plain file with its
    text, a directory with its entries, or something that is neither (a
    symbolic link, a socket, ...).  [lstat] does not follow links, while
    [fs.readFile] does: an entry of the third kind comes with what
    [fs.readFile] gives for it, the text of the file that a link leads
    to, or an error.  A directory is the list of its entries, name and
    node, in the order of [readdir]; the names of a directory are
    distinct, so [path.join(dir, name)] denotes the node listed with
    [name]. *)
Inductive Node :=
| File (content : string)
| Directory (entries : list (string * Node))
| Other (read : Result string).

(** The layout of an API resource directory, as far as the code looks:
    [schema.graphql] is a plain file when it exists, [schema] and
    [build/resolvers] are directories when they exist. *)
Record ApiResourceDir := {
  schemaFile : option string;
  schemaDirectory : option (list (string * Node));
  resolverDirectory : option (list (string * Node))
}.

(** [name.indexOf('.') === 0] *)
Definition isHiddenFile (name : string) : bool :=
  match String.index 0 "." name with
  | Some O => true
  | _ => false
  end.

(** [fs.readFile(path, 'utf8')]: links are followed. *)
Definition readFile (node : Node) : Result string :=
  match node with
  | File content => Resolved content
  | Directory _ => Rejected "EISDIR"
  | Other read => read
  end.

(** [obj[key] = value] on an object created by [{}], kept as the list
    of its own properties in insertion order: an existing property is
    overwritten in place, a new one is added last, and the key
    [__proto__] reaches the setter inherited from [Object.prototype],
    which ignores a value that is not an object. *)
Fixpoint setProperty (obj : list (string * string)) (key value : string)
  : list (string * string) :=
  match obj with
  | [] => [(key, value)]
  | (k, v) :: obj' =>
      if String.eqb k key then (k, value) :: obj'
      else (k, v) :: setProperty obj' key value
  end.

Definition assign (obj : list (string * string)) (key value : string)
  : list (string * string) :=
  if String.eqb key "__proto__" then obj else setProperty obj key value.

(** The loop of [loadResolvers] over [resolverFiles]. *)
Fixpoint loadResolverFiles (resolverFiles : list (string * Node))
    (resolvers : list (string * string)) : Result (list (string * string)) :=
  match resolverFiles with
  | [] => Resolved resolvers
  | (resolverFile, node) :: rest =>
      if isHiddenFile resolverFile then loadResolverFiles rest resolvers
      else match readFile node with
           | Resolved content =>
               loadResolverFiles rest (assign resolvers resolverFile content)
           | Rejected error => Rejected error
           end
  end.

Definition loadResolvers (apiResourceDirectory : ApiResourceDir)
  : Result (list (string * string)) :=
  let resolvers := [] in
  match resolverDirectory apiResourceDirectory with
  | Some resolverFiles => loadResolverFiles resolverFiles resolvers
  | None => Resolved resolvers
  end.

(** The loop of [modifyGraphQLSchemaDirectory] over [files], given what
    the body does with one visible entry; the result is the directory
    afterwards and the returned boolean. *)
Definition walk (visit : Node → Node * bool)
  : list (string * Node) → list (string * Node) * bool :=
  fix go (files : list (string * Node)) :=
    match files with
    | [] => ([], false)
    | (fileName, node) :: rest =>
        if isHiddenFile fileName then
          let '(rest', found) := go rest in ((fileName, node) :: rest', found)
        else
          let '(node', found) := visit node in
          if found then ((fileName, node') :: rest, true)
          else let '(rest', found') := go rest in ((fileName, node') :: rest', found')
    end.

(** One visible entry: a directory is walked, and the walk's answer
    decides; a plain file gets [fs.appendFile(fullPath, ' ')]; anything
    else is passed over. *)
Fixpoint visitEntry (node : Node) : Node * bool :=
  match node with
  | Directory files =>
      let '(files', found) := walk visitEntry files in (Directory files', found)
  | File content => (File (content ++ " "), true)
  | Other read => (Other read, false)
  end.

Definition modifyGraphQLSchemaDirectory (files : list (string * Node))
  : list (string * Node) * bool :=
  walk visitEntry files.

(** [modifyGraphQLSchema]: the API resource directory afterwards. *)
Definition modifyGraphQLSchema (apiResourceDir : ApiResourceDir) : ApiResourceDir :=
  match schemaFile apiResourceDir, schemaDirectory apiResourceDir with
  | Some content, _ =>
      {| schemaFile := Some (content ++ " ");
         schemaDirectory := schemaDirectory apiResourceDir;
         resolverDirectory := resolverDirectory apiResourceDir |}
  | None, Some files =>
      {| schemaFile := None;
         schemaDirectory := Some (fst (modifyGraphQLSchemaDirectory files));
         resolverDirectory := resolverDirectory apiResourceDir |}
  | None, None => apiResourceDir
  end.

(** *** Views of a tree, to state what a walk changes *)

(** The plain files below a node, with their paths, in depth-first
    order. *)
Fixpoint filesOf (node : Node) : list (list string * string) :=
  match node with
  | File content => [([], content)]
  | Directory entries =>
      flat_map (fun e => List.map (fun pc => (fst e :: fst pc, snd pc))
                                  (filesOf (snd e)))
               entries
  | Other _ => []
  end.

Definition filesIn (entries : list (string * Node)) : list (list string * string) :=
  filesOf (Directory entries).

(** The tree without the files' texts: names, kinds and order. *)
Fixpoint shapeOf (node : Node) : Node :=
  match node with
  | File _ => File ""
  | Directory entries =>
      Directory (List.map (fun e => (fst e, shapeOf (snd e))) entries)
  | Other read => Other read
  end.

(** No component of the path is a hidden name. *)
Definition visiblePath (path : list string) : bool :=
  forallb (fun name => negb (isHiddenFile name)) path.

(** [after] is [before] with one blank added to the text of its first
    file with a visible path. *)
Definition firstVisibleTouched (before after : list (list string * string)) : Prop :=
  ∃ l1 path content l2,
    before = (l1 ++ (path, content) :: l2)%list ∧
    after = (l1 ++ (path, (content ++ " ")%string) :: l2)%list ∧
    visiblePath path = true ∧
    Forall (fun pc => visiblePath (fst pc) = false) l1.

Definition noVisibleFile (files : list (list string * string)) : Prop :=
  Forall (fun pc => visiblePath (fst pc) = false) files.

Definition below (name : string) (files : list (list string * string))
  : list (list string * string) :=
  List.map (fun pc => (name :: fst pc, snd pc)) files.

(** What one visit, or one walk, does to the files below. *)
Definition visitSpec (before : Node) (result : Node * bool) : Prop :=
  shapeOf (fst result) = shapeOf before ∧
  if snd result
  then firstVisibleTouched (filesOf before) (filesOf (fst result))
  else fst result = before ∧ noVisibleFile (filesOf before).

(** What [fs.readFile] makes of an entry, said by the kind of the
    entry: the text of a plain file, or of the file a link leads to, can
    be read; a directory cannot, and neither can a link that leads to
    none or anything else [fs.readFile] fails on. *)
Definition readable (node : Node) (content : string) : Prop :=
  node = File content ∨ node = Other (Resolved content).

Definition unreadable (node : Node) (error : string) : Prop :=
  (∃ entries, node = Directory entries ∧ error = "EISDIR") ∨
  node = Other (Rejected error).

(** Every entry with a visible name can be read. *)
Definition visibleReadable (resolverFiles : list (string * Node)) : Prop :=
  Forall (fun e => isHiddenFile (fst e) = false → ∃ content, readable (snd e) content)
         resolverFiles.

(** The properties that the entries of a directory add to the object
    when each visible one can be read: one for each visible name other
    than [__proto__], with the text read. *)
Definition loadedFrom (resolverFiles : list (string * Node)) : list (string * string) :=
  flat_map (fun e =>
              match readFile (snd e) with
              | Resolved content =>
                  if isHiddenFile (fst e) || String.eqb (fst e) "__proto__"
                  then [] else [(fst e, content)]
              | Rejected _ => []
              end)
           resolverFiles.

End Fs.

(** ** NotificationPolicyEngine: the three policies and their helpers *)

Module Policy.
Import Ast Directives Resolvers Fs.

(** What a run does that a caller, the user or the operator can see. *)
Inductive Event :=
| BlankLine                                      (* printer.blankLine() *)
| Prompt (answer : bool)                         (* prompter.yesOrNo(...) *)
| EmitSuccess                                    (* context.usageData.emitSuccess() *)
| ExitOnNextTick (code : Z)                      (* exitOnNextTick(code) *)
| ModifyGraphQLSchema (apiResourceDir : string). (* modifyGraphQLSchema(dir) is called *)

(** The project and its surroundings.  [flagValues] are the boolean
    values of [graphqltransformer.*] that [FeatureFlags] holds in the
    process; [flagDefaults] is the value registered for each of these
    flags, and [newCliJSON] what else a [cli.json] that is created
    holds in that section (other registered values, if any); [cliJSON]
    is the section [features.graphqltransformer] of the project's
    [cli.json], if the file exists (the empty map when the file has no
    such section); [metaApi] is
    [Object.entries(meta?.api || {})], each resource with its [service];
    [metaAuth] tells whether [meta?.auth] is truthy; [resourceDirs] are
    the API resource directories that exist on disk, by resource name
    ([getResourceDirectoryPath(projectPath, 'api', name)] is the
    handle [name]); [answers n] is what the user answers to the prompt
    number [n] of the process. *)
Record World := {
  flagValues : gmap string bool;
  flagDefaults : string → bool;
  newCliJSON : gmap string bool;
  transformerVersion : Z;
  cliJSON : option (gmap string bool);
  metaApi : list (string * string);
  metaAuth : bool;
  resourceDirs : gmap string ApiResourceDir;
  answers : nat → bool
}.

(** A running process: the world, the number of prompts so far and the
    events so far. *)
Record Process := {
  world : World;
  prompts : nat;
  events : list Event
}.

Definition start (w : World) : Process :=
  {| world := w; prompts := 0; events := [] |}.

(** An asynchronous computation returns to its caller, rejects, or
    does not come back because the process has exited. *)
Inductive Outcome (A : Type) :=
| Returned (value : A) (p : Process)
| Threw (error : string) (p : Process)
| Exited (code : Z) (p : Process).
Arguments Returned {A} value p.
Arguments Threw {A} error p.
Arguments Exited {A} code p.

Definition Async (A : Type) : Type := Process → Outcome A.

Definition ret {A} (x : A) : Async A := fun p => Returned x p.

Definition bind {A B} (m : Async A) (f : A → Async B) : Async B :=
  fun p =>
    match m p with
    | Returned x p' => f x p'
    | Threw error p' => Threw error p'
    | Exited code p' => Exited code p'
    end.

Notation "x <- m ;; k" := (bind m (fun x => k))
  (at level 100, m at next level, right associativity).
Notation "m ;; k" := (bind m (fun _ => k))
  (at level 100, right associativity).

Definition gets {A} (f : Process → A) : Async A := fun p => Returned (f p) p.

Definition setWorld (f : World → World) : Async unit :=
  fun p => Returned tt {| world := f (world p); prompts := prompts p;
                          events := events p |}.

Definition emit (e : Event) : Async unit :=
  fun p => Returned tt {| world := world p; prompts := prompts p;
                          events := events p ++ [e] |}.

(** Modelled from the spec: [exitOnNextTick] of [amplify-cli-core] is
    not among the sources.  On a declined prompt the spec has the
    policies "terminate the process immediately with exit code 0"
    (4.4.1), "an immediate, unconditional halt" (5), "a hard stop of the
    whole process" (7): the call ends the process and does not return
    to its caller. *)
Definition exitOnNextTick (code : Z) : Async unit :=
  fun p => Exited code {| world := world p; prompts := prompts p;
                          events := events p ++ [ExitOnNextTick code] |}.

(** [await m]: the caller goes on with the result of [m] once [m] has
    returned; a rejection of [m] is thrown in the caller; when the
    process exits in [m] nothing follows.  The execution is sequential:
    no other code of the process runs meanwhile. *)
Definition await {A} (m : Async A) : Async A := m.

(** A call of an asynchronous function whose promise is dropped: the
    caller goes on whether the callee returns or rejects.  The callee is
    run to its end here: what it does after it first gives up control
    commutes with what the caller does meanwhile. *)
Definition fireAndForget {A} (m : Async A) : Async unit :=
  fun p =>
    match m p with
    | Returned _ p' => Returned tt p'
    | Threw _ p' => Returned tt p'
    | Exited code p' => Exited code p'
    end.

(** What the caller of an entry point sees: the entry point is awaited. *)
Definition run {A} (m : Async A) (w : World) : Outcome A := await m (start w).

Definition outcomeProcess {A} (o : Outcome A) : Process :=
  match o with Returned _ p | Threw _ p | Exited _ p => p end.

Definition exitCode {A} (o : Outcome A) : option Z :=
  match o with Exited code _ => Some code | _ => None end.

Definition returnValue {A} (o : Outcome A) : option A :=
  match o with Returned x _ => Some x | _ => None end.

Definition thrownError {A} (o : Outcome A) : option string :=
  match o with Threw error _ => Some error | _ => None end.

(** A promise that is already settled, or a call that returns or
    throws: its value, or its error thrown in the caller. *)
Definition settle {A} (r : Result A) : Async A :=
  fun p =>
    match r with
    | Resolved x => Returned x p
    | Rejected error => Threw error p
    end.

(** *** The collaborators *)

(** Modelled from the spec: [FeatureFlags.getBoolean] of
    [amplify-cli-core] is not among the sources; it reads the value the
    process holds for the flag. *)
Definition getBoolean (flagName : string) (p : Process) : bool :=
  default false (flagValues (world p) !! flagName).

(** Modelled from the spec: [stateManager.getCLIJSON] and
    [stateManager.setCLIJSON] of [amplify-cli-core] are not among the
    sources; they "read/write a JSON config file tolerant of missing
    file".  [getCLIJSON] is the call with [throwIfNotExist: false]. *)
Definition getCLIJSON : Async (option (gmap string bool)) :=
  gets (fun p => cliJSON (world p)).

Definition setCLIJSON (config : gmap string bool) : Async unit :=
  setWorld (fun w =>
    {| flagValues := flagValues w; flagDefaults := flagDefaults w;
       newCliJSON := newCliJSON w;
       transformerVersion := transformerVersion w;
       cliJSON := Some config; metaApi := metaApi w; metaAuth := metaAuth w;
       resourceDirs := resourceDirs w; answers := answers w |}).

(** Modelled from the spec: [FeatureFlags.ensureFeatureFlag] is not
    among the sources.  The existence of the flag's feature is
    "asserted (and implicitly registered) before read": a flag that
    [cli.json] does not hold is written there with its registered
    value, and a [cli.json] that is missing is created, with the flag.
    That is what makes the assignment
    [config.features.graphqltransformer[flagName] = value] of
    [setNotificationFlag] safe.  The two flags of the policies are
    registered ones, so the assertion itself does not fail. *)
Definition ensureFeatureFlag (flagName : string) : Async unit :=
  config <- getCLIJSON ;;
  registered <- gets (fun p => flagDefaults (world p) flagName) ;;
  match config with
  | Some features =>
      match features !! flagName with
      | Some _ => ret tt
      | None => setCLIJSON (<[flagName := registered]> features)
      end
  | None =>
      created <- gets (fun p => newCliJSON (world p)) ;;
      setCLIJSON (<[flagName := registered]> created)
  end.

(** Modelled from the spec: [FeatureFlags.reloadValues] is not among
    the sources; it is the "reload of feature-flag values in the
    process-wide configuration": the values of the persisted
    configuration replace the ones the process holds. *)
Definition reloadValues : Async unit :=
  setWorld (fun w =>
    {| flagValues := default ∅ (cliJSON w) ∪ flagValues w;
       flagDefaults := flagDefaults w;
       newCliJSON := newCliJSON w;
       transformerVersion := transformerVersion w;
       cliJSON := cliJSON w; metaApi := metaApi w; metaAuth := metaAuth w;
       resourceDirs := resourceDirs w; answers := answers w |}).

(** Modelled from the spec: [prompter.yesOrNo] and
    [printer.blankLine] of [amplify-prompts] and
    [context.usageData.emitSuccess] are not among the sources: "ask a
    yes/no question; returns boolean", and "emit a success event". *)
Definition yesOrNo : Async bool :=
  fun p =>
    let answer := answers (world p) (prompts p) in
    Returned answer {| world := world p; prompts := S (prompts p);
                       events := events p ++ [Prompt answer] |}.

Definition emitSuccess : Async unit := emit EmitSuccess.

Definition blankLine : Async unit := emit BlankLine.

(** [fs.existsSync(apiResourceDir)] *)
Definition existsSync (apiResourceDir : string) (p : Process) : bool :=
  bool_decide (is_Some (resourceDirs (world p) !! apiResourceDir)).

Definition noDirectory : ApiResourceDir :=
  {| schemaFile := None; schemaDirectory := None; resolverDirectory := None |}.

Definition directoryAt (apiResourceDir : string) (p : Process) : ApiResourceDir :=
  default noDirectory (resourceDirs (world p) !! apiResourceDir).

Definition setDirectory (apiResourceDir : string) (d : ApiResourceDir) : Async unit :=
  setWorld (fun w =>
    {| flagValues := flagValues w; flagDefaults := flagDefaults w;
       newCliJSON := newCliJSON w;
       transformerVersion := transformerVersion w;
       cliJSON := cliJSON w; metaApi := metaApi w; metaAuth := metaAuth w;
       resourceDirs := <[apiResourceDir := d]> (resourceDirs w);
       answers := answers w |}).

(** *** The helpers of the source *)

Definition setNotificationFlag (flagName : string) (value : bool) : Async unit :=
  await (ensureFeatureFlag flagName) ;;
  config <- getCLIJSON ;;
  match config with
  | Some config =>
      setCLIJSON (<[flagName := value]> config) ;;
      await reloadValues
  | None => ret tt
  end.

(** The names of the resources of [meta.api] whose service is AppSync. *)
Definition appSyncApiNames (w : World) : list string :=
  List.map (fun '(name, _) => name)
    (List.filter (fun '(_, service) => String.eqb service "AppSync") (metaApi w)).

Definition containsGraphQLApi : Async bool :=
  apiNames <- gets (fun p => appSyncApiNames (world p)) ;;
  let doesNotHaveGqlApi := (length apiNames <? 1)%nat in
  if doesNotHaveGqlApi then ret false
  else
    match apiNames with
    | apiName :: _ =>
        let apiResourceDir := apiName in
        dirExists <- gets (existsSync apiResourceDir) ;;
        if negb dirExists then ret false else ret true
    | [] => ret false
    end.

Definition getApiResourceDir : Async (option string) :=
  hasGraphQLApi <- await containsGraphQLApi ;;
  if negb hasGraphQLApi then ret None
  else
    apiNames <- gets (fun p => appSyncApiNames (world p)) ;;
    match apiNames with
    | apiName :: _ => ret (Some apiName)
    | [] => ret None
    end.

(** [modifyGraphQLSchema(apiResourceDir)] as a call: the directory
    becomes what [modifyGraphQLSchema] makes of it; the appends, which
    the code does not await, are taken to complete. *)
Definition callModifyGraphQLSchema (apiResourceDir : string) : Async unit :=
  emit (ModifyGraphQLSchema apiResourceDir) ;;
  d <- gets (fun p => resourceDirs (world p) !! apiResourceDir) ;;
  match d with
  | Some d => setDirectory apiResourceDir (modifyGraphQLSchema d)
  | None => ret tt
  end.

(** *** The policies, over the readers of the schema

    [readProjectConfiguration], [parse], [collectDirectivesByType] and
    [collectDirectivesByTypeNames] belong to other packages; the
    policies are stated over any such functions.  Each of them returns
    or throws: [readSchema d] is
    [(await readProjectConfiguration(dir)).schema] for the directory
    whose content is [d], or the error with which the promise rejects
    (no schema is found); [parse] and the two collectors, which parse
    the text themselves, throw on a text that is not GraphQL. *)
Section Policies.
Variable readSchema : ApiResourceDir → Result string.
Variable parse : string → Result DocumentNode.
Variable collectDirectivesByType : string → Result (gmap string (list DirectiveNode)).
Variable collectDirectivesByTypeNames : string → Result (gmap string (list string)).

Definition readProjectConfiguration (apiResourceDir : string) : Async string :=
  d <- gets (directoryAt apiResourceDir) ;;
  settle (readSchema d).

(** The prompt and what follows it, the same in the three policies up
    to the call of [modifyGraphQLSchema]. *)
Definition promptAndDecline : Async unit :=
  blankLine ;;
  continueChange <- await yesOrNo ;;
  if negb continueChange then
    await emitSuccess ;;
    exitOnNextTick 0
  else ret tt.

(** The body of [notifyFieldAuthSecurityChange] once the directory is
    known. *)
Definition fieldAuthOn (flagName apiResourceDir : string) : Async bool :=
  schema <- await (readProjectConfiguration apiResourceDir) ;;
  directiveMap <- settle (collectDirectivesByType schema) ;;
  doc <- settle (parse schema) ;;
  let fieldDirectives := hasFieldAuthDirectives doc in
  version <- gets (fun p => transformerVersion (world p)) ;;
  schemaModified <-
    (if displayAuthNotification version directiveMap fieldDirectives then
       promptAndDecline ;;
       fireAndForget (callModifyGraphQLSchema apiResourceDir) ;;
       ret true
     else ret false) ;;
  await (setNotificationFlag flagName false) ;;
  ret schemaModified.

Definition notifyFieldAuthSecurityChange : Async bool :=
  let flagName := "showfieldauthnotification" in
  dontShowNotification <- gets (fun p => negb (getBoolean flagName p)) ;;
  if dontShowNotification then ret false
  else
    apiResourceDir <- await getApiResourceDir ;;
    match apiResourceDir with
    | None =>
        await (setNotificationFlag flagName false) ;;
        ret false
    | Some apiResourceDir => fieldAuthOn flagName apiResourceDir
    end.

(** The body of [notifyListQuerySecurityChange] once the directory is
    known.  [Object.entries] lists array-index keys first and the other
    keys in insertion order; no array index passes the name filter of
    [resolversToCheck], so the list of own properties stands for it. *)
Definition listQueryOn (apiResourceDir : string) : Async bool :=
  schema <- await (readProjectConfiguration apiResourceDir) ;;
  loaded <- gets (fun p => loadResolvers (directoryAt apiResourceDir p)) ;;
  resolvers <- await (settle loaded) ;;
  if (length (resolversToSecure resolvers) =? 0)%nat then ret false
  else
    doc <- settle (parse schema) ;;
    version <- gets (fun p => transformerVersion (world p)) ;;
    if hasV2AuthDirectives version doc then
      promptAndDecline ;;
      fireAndForget (callModifyGraphQLSchema apiResourceDir) ;;
      ret true
    else ret false.

Definition notifyListQuerySecurityChange : Async bool :=
  apiResourceDir <- await getApiResourceDir ;;
  match apiResourceDir with
  | None => ret false
  | Some apiResourceDir => listQueryOn apiResourceDir
  end.

(** [directiveMap.types[type].includes(name)] *)
Definition includes (names : list string) (name : string) : bool :=
  existsb (String.eqb name) names.

(** [Object.keys(directiveMap.types).some(...)] *)
Definition notifyAuthWithKey (types : gmap string (list string)) : bool :=
  existsb (fun '(_, names) => includes names "auth" && includes names "primaryKey")
          (map_to_list types).

Definition notifySecurityEnhancement : Async unit :=
  let flagName := "securityEnhancementNotification" in
  enabled <- gets (getBoolean flagName) ;;
  if enabled then
    apiNames <- gets (fun p => appSyncApiNames (world p)) ;;
    match apiNames with
    | [apiName] =>
        let apiResourceDir := apiName in
        dirExists <- gets (existsSync apiResourceDir) ;;
        if negb dirExists then
          await (setNotificationFlag flagName false)
        else
          schema <- await (readProjectConfiguration apiResourceDir) ;;
          types <- settle (collectDirectivesByTypeNames schema) ;;
          hasAuth <- gets (fun p => metaAuth (world p)) ;;
          if hasAuth && notifyAuthWithKey types then
            promptAndDecline ;;
            await (callModifyGraphQLSchema apiResourceDir) ;;
            await (setNotificationFlag flagName false)
          else
            await (setNotificationFlag flagName false)
    | _ =>
        (* apiNames.length !== 1 *)
        await (setNotificationFlag flagName false)
    end
  else ret tt.

End Policies.

(** *** Views of a run, to state what the policies guarantee *)


(** The ways a call of a policy can go, by the events it adds: no event
    at all; a prompt answered Yes and the call of
    [modifyGraphQLSchema]; a prompt answered No, one success event and
    the exit with code 0, upon which the process has ended; and a call
    that rejects has added no event. *)
Definition policyTrace (p : Process) {A} (o : Outcome A) : Prop :=
  match o with
  | Returned _ p' =>
      events p' = events p ∨
      ∃ apiResourceDir,
        events p' = (events p ++ [BlankLine; Prompt true;
                                  ModifyGraphQLSchema apiResourceDir])%list
  | Exited code p' =>
      code = 0%Z ∧
      events p' = (events p ++ [BlankLine; Prompt false; EmitSuccess;
                                ExitOnNextTick 0])%list
  | Threw _ p' => events p' = events p
  end.

(** Two calls in sequence, as a caller makes them. *)
Definition twice {A} (policy : Async A) : Async (A * A) :=
  first <- await policy ;;
  second <- await policy ;;
  ret (first, second).

End Policy.

(** ** A sample project *)

Module Sample.
Import Ast Directives Resolvers Fs Policy.

Definition authDirective : DirectiveNode :=
  {| dir_name := "auth";
     dir_arguments :=
       Some [{| arg_name := "rules";
                arg_value := ListValue [ObjectValue [("allow", EnumValue "owner")]] |}] |}.

Definition modelDirective : DirectiveNode :=
  {| dir_name := "model";
     dir_arguments := Some [{| arg_name := "subscriptions"; arg_value := NullValue |}] |}.

Definition primaryKeyDirective : DirectiveNode :=
  {| dir_name := "primaryKey"; dir_arguments := Some [] |}.

Definition todoSchema : string :=
  "type Todo @model(subscriptions: null) @auth(rules: [{allow: owner}]) { id: ID! @primaryKey @auth(rules: [{allow: owner}]) }".

(** The document of [todoSchema]. *)
Definition todoDocument : DocumentNode :=
  [NamedDefinition "Todo" (Some [modelDirective; authDirective])
     (Some [{| field_name := "id"; field_type_kind := NonNullType;
               field_directives := Some [primaryKeyDirective; authDirective] |}])].

(** A text that is not GraphQL. *)
Definition brokenSchema : string := "type {".

Definition lineFeed : string := String (ascii_of_nat 10) EmptyString.

Definition onlyBlanks (text : string) : bool :=
  forallb (fun c => Ascii.eqb c " "%char) (list_ascii_of_string text).

(** [todoSchema], possibly followed by blanks. *)
Definition isTodoSchema (schema : string) : bool :=
  match matchLiteral todoSchema schema with
  | Some rest => onlyBlanks rest
  | None => false
  end.

(** Stand-ins for the readers of the schema, which are not among the
    sources.  The schema is the text of [schema.graphql], or else the
    texts of the visible files of [schema], joined by line feeds; with
    neither no schema is found.  The parser and the collectors are
    tables for the texts of the sample projects: [todoSchema], possibly
    followed by blanks, is read as [todoDocument]; the directives of a
    type are those of its fields followed by its own, and the names of
    the directives of a type come without repeats; every other text of
    the sample projects is not GraphQL. *)
Definition readSchema (d : ApiResourceDir) : Result string :=
  match schemaFile d, schemaDirectory d with
  | Some text, _ => Resolved text
  | None, Some files =>
      Resolved (String.concat lineFeed
                  (List.map snd (List.filter (fun pc => visiblePath (fst pc))
                                             (filesIn files))))
  | None, None => Rejected "Could not find a schema"
  end.

Definition parse (schema : string) : Result DocumentNode :=
  if isTodoSchema schema then Resolved todoDocument else Rejected "Syntax Error".

Definition collectDirectivesByType (schema : string)
  : Result (gmap string (list DirectiveNode)) :=
  if isTodoSchema schema
  then Resolved {[ "Todo" := [primaryKeyDirective; authDirective;
                              modelDirective; authDirective] ]}
  else Rejected "Syntax Error".

Definition collectDirectivesByTypeNames (schema : string)
  : Result (gmap string (list string)) :=
  if isTodoSchema schema
  then Resolved {[ "Todo" := ["primaryKey"; "auth"; "model"] ]}
  else Rejected "Syntax Error".

(** A list request template whose filter assignment has no guard. *)
Definition unguardedTemplate : string :=
  "## [Start] List Request. **" ++ lineFeed ++ filterAssignment ++ lineFeed
  ++ "#set( $ListRequest = {} )".

(** Another one, of another model. *)
Definition unguardedPostTemplate : string :=
  "## [Start] List Posts. **" ++ lineFeed ++ filterAssignment ++ lineFeed
  ++ "#set( $limit = 100 )".

(** The same template with the guard right after the assignment. *)
Definition guardedTemplate : string :=
  "## [Start] List Request. **" ++ lineFeed ++ filterAssignment ++ lineFeed
  ++ filterGuard ++ lineFeed ++ "#set( $ListRequest = {} )".

(** An API whose schema is the single file [schema.graphql]. *)
Definition todoApi : ApiResourceDir :=
  {| schemaFile := Some todoSchema;
     schemaDirectory := None;
     resolverDirectory := Some [("Query.listTodos.req.vtl", File unguardedTemplate)] |}.

(** The same API with its schema in the directory [schema]. *)
Definition todoApiSplit : ApiResourceDir :=
  {| schemaFile := None;
     schemaDirectory := Some [("todo.graphql", File todoSchema)];
     resolverDirectory := Some [("Query.listTodos.req.vtl", File unguardedTemplate)] |}.

(** The same API with a schema that is not GraphQL. *)
Definition brokenApi : ApiResourceDir :=
  {| schemaFile := Some brokenSchema;
     schemaDirectory := None;
     resolverDirectory := Some [("Query.listTodos.req.vtl", File unguardedTemplate)] |}.

Definition flagsOn : gmap string bool :=
  {[ "showfieldauthnotification" := true; "securityEnhancementNotification" := true ]}.

Definition project (config : option (gmap string bool))
    (apis : list (string * string)) (dirs : gmap string ApiResourceDir)
    (answer : bool) : World :=
  {| flagValues := flagsOn;
     flagDefaults := fun _ => false;
     newCliJSON := ∅;
     transformerVersion := 2;
     cliJSON := config;
     metaApi := apis;
     metaAuth := true;
     resourceDirs := dirs;
     answers := fun _ => answer |}.

(** One AppSync API, [cli.json] present; the user answers [answer] to
    every prompt. *)
Definition todoProject (answer : bool) : World :=
  project (Some flagsOn) [("todoapi", "AppSync")] {[ "todoapi" := todoApi ]} answer.

Definition todoProjectSplit (answer : bool) : World :=
  project (Some flagsOn) [("todoapi", "AppSync")] {[ "todoapi" := todoApiSplit ]} answer.

(** The same project without [cli.json]. *)
Definition todoProjectWithoutConfig (answer : bool) : World :=
  project None [("todoapi", "AppSync")] {[ "todoapi" := todoApi ]} answer.

(** The same project with the schema that is not GraphQL. *)
Definition brokenProject (answer : bool) : World :=
  project (Some flagsOn) [("todoapi", "AppSync")] {[ "todoapi" := brokenApi ]} answer.

(** Two AppSync APIs (and a REST API between them). *)
Definition twoApiProject (answer : bool) : World :=
  project (Some flagsOn)
    [("todoapi", "AppSync"); ("restapi", "API Gateway"); ("otherapi", "AppSync")]
    {[ "todoapi" := todoApi; "otherapi" := todoApiSplit ]} answer.

Definition fieldAuth : Async bool :=
  notifyFieldAuthSecurityChange readSchema parse collectDirectivesByType.

Definition listQuery : Async bool :=
  notifyListQuerySecurityChange readSchema parse.

Definition securityEnhancement : Async unit :=
  notifySecurityEnhancement readSchema collectDirectivesByTypeNames.

End Sample.

(** ** Conditions and measures used by the properties *)

Module Measures.
Import Ast Directives Resolvers Fs Policy.

(** The number of characters of all plain files of a directory. *)
Definition textLength (files : list (string * Node)) : nat :=
  sum_list_with (fun pc => String.length (snd pc)) (filesIn files).

(** The text holds the filter assignment somewhere with no guard after
    it, white space apart. *)
Definition unguarded (code : string) : Prop :=
  ∃ before rest, code = before ++ filterAssignment ++ rest ∧ guardFollows rest = false.

(** [name] is the first resource of [meta.api] whose service is
    AppSync. *)
Definition firstAppSync (w : World) (name : string) : Prop :=
  ∃ before after,
    metaApi w = (before ++ (name, "AppSync") :: after)%list ∧
    Forall (fun e => snd e ≠ "AppSync") before.

(** [name] is the only resource of [meta.api] whose service is
    AppSync. *)
Definition onlyAppSync (w : World) (name : string) : Prop :=
  ∃ before after,
    metaApi w = (before ++ (name, "AppSync") :: after)%list ∧
    Forall (fun e => snd e ≠ "AppSync") before ∧
    Forall (fun e => snd e ≠ "AppSync") after.

(** The directories after [modifyGraphQLSchema] was called, or not, on
    the directory of [name]. *)
Definition touchedAt (name : string) (dirs dirs' : gmap string ApiResourceDir) : Prop :=
  ∃ d, dirs !! name = Some d ∧ dirs' = <[name := modifyGraphQLSchema d]> dirs.

(** Nothing of the project metadata and of the user's answers has
    changed. *)
Definition sameProject (w w' : World) : Prop :=
  metaApi w' = metaApi w ∧ metaAuth w' = metaAuth w ∧
  transformerVersion w' = transformerVersion w ∧ answers w' = answers w.

(** What a list request template directory must hold for the
    list-query policy to go on: the unsafe list is not empty. *)
Definition someUnguarded (resolvers : list (string * string)) : Prop :=
  ∃ code, code ∈ resolversToCheck resolvers ∧ unguarded code.

(** The flag is on in the process. *)
Definition flagOn (flagName : string) (w : World) : Prop :=
  flagValues w !! flagName = Some true.

(** The conditions under which each policy asks the user, [name] being
    the API and [d] its resource directory, and the conditions under
    which it rejects with [error]: a reader of the schema, or the
    loader of the resolvers, throws before the policy has decided. *)
Definition listQueryTrigger (readSchema : ApiResourceDir → Result string)
    (parse : string → Result DocumentNode) (w : World)
    (name : string) (d : ApiResourceDir) : Prop :=
  firstAppSync w name ∧ resourceDirs w !! name = Some d ∧
  ∃ schema resolvers doc,
    readSchema d = Resolved schema ∧
    loadResolvers d = Resolved resolvers ∧ someUnguarded resolvers ∧
    parse schema = Resolved doc ∧
    hasV2AuthDirectives (transformerVersion w) doc = true.

Definition listQueryRejects (readSchema : ApiResourceDir → Result string)
    (parse : string → Result DocumentNode) (w : World)
    (name : string) (d : ApiResourceDir) (error : string) : Prop :=
  firstAppSync w name ∧ resourceDirs w !! name = Some d ∧
  (readSchema d = Rejected error ∨
   ∃ schema,
     readSchema d = Resolved schema ∧
     (loadResolvers d = Rejected error ∨
      ∃ resolvers,
        loadResolvers d = Resolved resolvers ∧ someUnguarded resolvers ∧
        parse schema = Rejected error)).

Definition fieldAuthTrigger (readSchema : ApiResourceDir → Result string)
    (parse : string → Result DocumentNode)
    (collectDirectivesByType : string → Result (gmap string (list DirectiveNode)))
    (w : World) (name : string) (d : ApiResourceDir) : Prop :=
  flagOn "showfieldauthnotification" w ∧
  firstAppSync w name ∧ resourceDirs w !! name = Some d ∧
  ∃ schema directiveMap doc,
    readSchema d = Resolved schema ∧
    collectDirectivesByType schema = Resolved directiveMap ∧
    parse schema = Resolved doc ∧
    displayAuthNotification (transformerVersion w) directiveMap
      (hasFieldAuthDirectives doc) = true.

Definition fieldAuthRejects (readSchema : ApiResourceDir → Result string)
    (parse : string → Result DocumentNode)
    (collectDirectivesByType : string → Result (gmap string (list DirectiveNode)))
    (w : World) (name : string) (d : ApiResourceDir) (error : string) : Prop :=
  flagOn "showfieldauthnotification" w ∧
  firstAppSync w name ∧ resourceDirs w !! name = Some d ∧
  (readSchema d = Rejected error ∨
   ∃ schema,
     readSchema d = Resolved schema ∧
     (collectDirectivesByType schema = Rejected error ∨
      ∃ directiveMap,
        collectDirectivesByType schema = Resolved directiveMap ∧
        parse schema = Rejected error)).

Definition securityTrigger (readSchema : ApiResourceDir → Result string)
    (collectDirectivesByTypeNames : string → Result (gmap string (list string)))
    (w : World) (name : string) (d : ApiResourceDir) : Prop :=
  flagOn "securityEnhancementNotification" w ∧
  onlyAppSync w name ∧ resourceDirs w !! name = Some d ∧
  metaAuth w = true ∧
  ∃ schema types type names,
    readSchema d = Resolved schema ∧
    collectDirectivesByTypeNames schema = Resolved types ∧
    types !! type = Some names ∧
    "auth" ∈ names ∧ "primaryKey" ∈ names.

Definition securityRejects (readSchema : ApiResourceDir → Result string)
    (collectDirectivesByTypeNames : string → Result (gmap string (list string)))
    (w : World) (name : string) (d : ApiResourceDir) (error : string) : Prop :=
  flagOn "securityEnhancementNotification" w ∧
  onlyAppSync w name ∧ resourceDirs w !! name = Some d ∧
  (readSchema d = Rejected error ∨
   ∃ schema,
     readSchema d = Resolved schema ∧
     collectDirectivesByTypeNames schema = Rejected error).

(** [setNotificationFlag flagName value] has run to its end: the
    process holds [value] for the flag, and [cli.json] exists and holds
    [value] for it, the other flags of a file that was there being as
    they were. *)
Definition flagSet (flagName : string) (value : bool) (w w' : World) : Prop :=
  flagValues w' !! flagName = Some value ∧
  ∃ config,
    cliJSON w' = Some config ∧ config !! flagName = Some value ∧
    ∀ old, cliJSON w = Some old →
           ∀ other, other ≠ flagName → config !! other = old !! other.

(** What a call has done to the flags: a flag-gated policy that returns
    has set its flag to [false]; the list-query policy, which has no
    flag, changes none. *)
Definition flagEffect (flag : option string) (w w' : World) : Prop :=
  match flag with
  | Some flagName => flagSet flagName false w w'
  | None => cliJSON w' = cliJSON w ∧ flagValues w' = flagValues w
  end.

(** A call that returns [x] without a prompt, an event or a change of a
    directory. *)
Definition quietly (flag : option string) (p : Process) {A} (x : A)
    (o : Outcome A) : Prop :=
  ∃ p',
    o = Returned x p' ∧ prompts p' = prompts p ∧
    events p' = events p ∧ resourceDirs (world p') = resourceDirs (world p) ∧
    sameProject (world p) (world p') ∧ flagEffect flag (world p) (world p').

(** A call that has asked the user about the API [name] of directory
    [d], and the user has agreed: [modifyGraphQLSchema] has been called,
    [modifyGraphQLSchema d] has replaced [d], and the call returns
    [yes]. *)
Definition agreed (flag : option string) (name : string) (d : ApiResourceDir)
    (p : Process) {A} (yes : A) (o : Outcome A) : Prop :=
  ∃ p',
    o = Returned yes p' ∧ prompts p' = S (prompts p) ∧
    events p' = (events p ++ [BlankLine; Prompt true; ModifyGraphQLSchema name])%list ∧
    resourceDirs (world p') = <[name := modifyGraphQLSchema d]> (resourceDirs (world p)) ∧
    sameProject (world p) (world p') ∧ flagEffect flag (world p) (world p').

(** A call that has asked the user, and the user has declined: one
    success event, and the process has exited with code 0; the call of
    [modifyGraphQLSchema] has not been reached and nothing of the world
    has changed, neither a schema nor a flag. *)
Definition declined (p : Process) {A} (o : Outcome A) : Prop :=
  ∃ p',
    o = Exited 0%Z p' ∧ prompts p' = S (prompts p) ∧
    events p' = (events p ++ [BlankLine; Prompt false; EmitSuccess;
                              ExitOnNextTick 0])%list ∧
    world p' = world p.

Definition asked (flag : option string) (name : string) (d : ApiResourceDir)
    (p : Process) {A} (yes : A) (o : Outcome A) : Prop :=
  if answers (world p) (prompts p)
  then agreed flag name d p yes o
  else declined p o.

(** What a run of a policy may do to the API resource directories: a
    call that returns has changed nothing when it did not ask, and has
    replaced the directory of the first AppSync API by
    [modifyGraphQLSchema] of it when it asked; a run cut off by the
    exit has done the one or the other; a call that throws has changed
    nothing. *)
Definition schemaEffect (w : World) {A} (o : Outcome A) : Prop :=
  let touched :=
    ∃ name, firstAppSync w name ∧
            touchedAt name (resourceDirs w) (resourceDirs (world (outcomeProcess o))) in
  let untouched := resourceDirs (world (outcomeProcess o)) = resourceDirs w in
  match o with
  | Returned _ p' => if (prompts p' =? 0)%nat then untouched else touched
  | Exited _ _ => untouched ∨ touched
  | Threw _ _ => untouched
  end.

(** *** The decision of a policy, read off its project

    What a policy decides before it asks, as a function of the project:
    it returns at once ([Skip]), it clears its flag and returns
    ([Quiet]), it asks about an API ([Ask]), or a reader throws
    ([Fail]). *)
Inductive Verdict :=
| Skip
| Quiet
| Ask (name : string) (d : ApiResourceDir)
| Fail (error : string).

Definition listQueryVerdict (readSchema : ApiResourceDir → Result string)
    (parse : string → Result DocumentNode) (w : World) : Verdict :=
  match appSyncApiNames w with
  | name :: _ =>
      match resourceDirs w !! name with
      | Some d =>
          match readSchema d with
          | Resolved schema =>
              match loadResolvers d with
              | Resolved resolvers =>
                  if (length (resolversToSecure resolvers) =? 0)%nat then Skip
                  else
                    match parse schema with
                    | Resolved doc =>
                        if hasV2AuthDirectives (transformerVersion w) doc
                        then Ask name d else Skip
                    | Rejected error => Fail error
                    end
              | Rejected error => Fail error
              end
          | Rejected error => Fail error
          end
      | None => Skip
      end
  | [] => Skip
  end.

Definition fieldAuthVerdict (readSchema : ApiResourceDir → Result string)
    (parse : string → Result DocumentNode)
    (collectDirectivesByType : string → Result (gmap string (list DirectiveNode)))
    (w : World) : Verdict :=
  if default false (flagValues w !! "showfieldauthnotification") then
    match appSyncApiNames w with
    | name :: _ =>
        match resourceDirs w !! name with
        | Some d =>
            match readSchema d with
            | Resolved schema =>
                match collectDirectivesByType schema with
                | Resolved directiveMap =>
                    match parse schema with
                    | Resolved doc =>
                        if displayAuthNotification (transformerVersion w) directiveMap
                             (hasFieldAuthDirectives doc)
                        then Ask name d else Quiet
                    | Rejected error => Fail error
                    end
                | Rejected error => Fail error
                end
            | Rejected error => Fail error
            end
        | None => Quiet
        end
    | [] => Quiet
    end
  else Skip.

Definition securityVerdict (readSchema : ApiResourceDir → Result string)
    (collectDirectivesByTypeNames : string → Result (gmap string (list string)))
    (w : World) : Verdict :=
  if default false (flagValues w !! "securityEnhancementNotification") then
    match appSyncApiNames w with
    | [name] =>
        match resourceDirs w !! name with
        | Some d =>
            match readSchema d with
            | Resolved schema =>
                match collectDirectivesByTypeNames schema with
                | Resolved types =>
                    if metaAuth w && notifyAuthWithKey types then Ask name d else Quiet
                | Rejected error => Fail error
                end
            | Rejected error => Fail error
            end
        | None => Quiet
        end
    | _ => Quiet
    end
  else Skip.

(** The outcome of a call that follows a verdict. *)
Definition follows (flag : option string) (v : Verdict) (p : Process) {A}
    (no yes : A) (o : Outcome A) : Prop :=
  match v with
  | Skip => o = Returned no p
  | Quiet => quietly flag p no o
  | Ask name d => asked flag name d p yes o
  | Fail error => o = Threw error p
  end.

End Measures.

(** * Properties *)

Section DirectiveFacts.
Import Ast Directives.

Lemma someNamed_true n dirs :
  someNamed n dirs = true ↔ ∃ dir, dir ∈ orEmpty dirs ∧ dir_name dir = n.
Proof.
  unfold someNamed. rewrite existsb_exists. split.
  - intros (dir & Hin & Heq). exists dir. split.
    + by apply list_elem_of_In.
    + by apply String.eqb_eq.
  - intros (dir & Hin & Heq). exists dir. split.
    + by apply list_elem_of_In.
    + by apply String.eqb_eq.
Qed.

Lemma fieldWithAuth_true field :
  fieldWithAuth field = true ↔
  field_type_kind field = NonNullType ∧
  ∃ dir, dir ∈ orEmpty (field_directives field) ∧ dir_name dir = "auth".
Proof.
  unfold fieldWithAuth. rewrite andb_true_iff, bool_decide_eq_true, someNamed_true.
  tauto.
Qed.

(** A definition contributes its name exactly when the filtered field
    list is not empty. *)
Lemma withAuth_nonempty fields :
  (0 <? length (List.filter fieldWithAuth fields))%nat = true ↔
  ∃ field, field ∈ fields ∧ fieldWithAuth field = true.
Proof.
  rewrite Nat.ltb_lt. split.
  - destruct (List.filter fieldWithAuth fields) as [|f l] eqn:E; simpl; [lia|].
    intros _. assert (In f (List.filter fieldWithAuth fields)) as Hin
      by (rewrite E; left; reflexivity).
    apply filter_In in Hin as [Hin Hf]. exists f. split; [|done].
    by apply list_elem_of_In.
  - intros (f & Hin & Hf).
    assert (In f (List.filter fieldWithAuth fields)) as Hin'.
    { apply filter_In. split; [|done]. by apply list_elem_of_In. }
    destruct (List.filter fieldWithAuth fields); simpl; [destruct Hin' | lia].
Qed.

Lemma hasFieldAuthDirectives_fold (doc : DocumentNode) (acc : gset string) typeName :
  typeName ∈ foldl (fun (haveFieldAuthDir : gset string) def =>
           let withAuth := List.filter fieldWithAuth (orEmpty (def_fields def)) in
           if (0 <? length withAuth)%nat
           then match def_name def with
                | Some name => {[ name ]} ∪ haveFieldAuthDir
                | None => haveFieldAuthDir
                end
           else haveFieldAuthDir) acc doc
  ↔ typeName ∈ acc ∨
    ∃ def field, def ∈ doc ∧ def_name def = Some typeName ∧
                 field ∈ orEmpty (def_fields def) ∧ fieldWithAuth field = true.
Proof.
  revert acc. induction doc as [|def doc IH]; intros acc; simpl.
  - split; [by left|]. intros [?|(def & f & Hin & _)]; [done|]. by apply elem_of_nil in Hin.
  - rewrite IH. clear IH.
    destruct (0 <? length _)%nat eqn:E.
    + apply withAuth_nonempty in E as (f & Hf & Hq).
      destruct (def_name def) as [name|] eqn:Hname.
      * rewrite elem_of_union, elem_of_singleton. split.
        -- intros [[->|?]|(d & g & Hd & ?)].
           ++ right. exists def, f. split; [left|]; done.
           ++ by left.
           ++ right. exists d, g. split; [by right|done].
        -- intros [?|(d & g & Hd & Hn & Hg)]; [left; by right|].
           apply elem_of_cons in Hd as [->|Hd].
           ++ left. left. congruence.
           ++ right. exists d, g. done.
      * destruct def; simpl in *; [discriminate|].
        by apply elem_of_nil in Hf.
    + split.
      * intros [?|(d & g & Hd & ?)]; [by left|]. right. exists d, g. split; [by right|done].
      * intros [?|(d & g & Hd & Hn & Hg & Hq)]; [by left|].
        apply elem_of_cons in Hd as [->|Hd].
        -- exfalso. assert ((0 <? length (List.filter fieldWithAuth (orEmpty (def_fields def))))%nat = true) as E'
             by (apply withAuth_nonempty; eauto).
           congruence.
        -- right. exists d, g. done.
Qed.

(** C5.  [hasFieldAuthDirectives] returns exactly the names of the
    definitions that have at least one field whose type is [NonNullType]
    and which carries a directive named [auth]; when no definition has
    such a field (in particular when [auth] sits on nullable fields
    only) the result is the empty set. *)
Theorem hasFieldAuthDirectives_exact (doc : DocumentNode) :
  (∀ typeName,
      typeName ∈ hasFieldAuthDirectives doc ↔
      ∃ def field dir,
        def ∈ doc ∧ def_name def = Some typeName ∧
        field ∈ orEmpty (def_fields def) ∧
        field_type_kind field = NonNullType ∧
        dir ∈ orEmpty (field_directives field) ∧ dir_name dir = "auth")
  ∧ ((∀ def field dir,
         def ∈ doc → field ∈ orEmpty (def_fields def) →
         dir ∈ orEmpty (field_directives field) → dir_name dir = "auth" →
         field_type_kind field ≠ NonNullType) →
     hasFieldAuthDirectives doc = ∅).
Proof.
  assert (∀ typeName,
      typeName ∈ hasFieldAuthDirectives doc ↔
      ∃ def field dir,
        def ∈ doc ∧ def_name def = Some typeName ∧
        field ∈ orEmpty (def_fields def) ∧
        field_type_kind field = NonNullType ∧
        dir ∈ orEmpty (field_directives field) ∧ dir_name dir = "auth") as Hexact.
  { intros typeName. unfold hasFieldAuthDirectives.
    rewrite hasFieldAuthDirectives_fold. split.
    - intros [Hemp|(def & f & Hd & Hn & Hf & Hq)]; [by apply not_elem_of_empty in Hemp|].
      apply fieldWithAuth_true in Hq as (Hk & dir & Hdir & Hauth).
      exists def, f, dir. done.
    - intros (def & f & dir & Hd & Hn & Hf & Hk & Hdir & Hauth).
      right. exists def, f. repeat split; try done.
      apply fieldWithAuth_true. eauto. }
  split; [exact Hexact|].
  intros Hnone. apply set_eq. intros typeName. rewrite Hexact. split.
  - intros (def & f & dir & Hd & _ & Hf & Hk & Hdir & Hauth).
    exfalso. by eapply Hnone.
  - intros Hemp. by apply not_elem_of_empty in Hemp.
Qed.

Lemma containsAuthDir_fold (doc : DocumentNode) (acc : bool) :
  foldl (fun (containsAuthDir : bool) def =>
           if someNamed "auth" (def_directives def) then true else containsAuthDir)
        acc doc
  = acc || existsb (fun def => someNamed "auth" (def_directives def)) doc.
Proof.
  revert acc. induction doc as [|def doc IH]; intros acc; simpl.
  - by rewrite orb_false_r.
  - rewrite IH. destruct (someNamed "auth" (def_directives def)), acc; reflexivity.
Qed.

Lemma hasV2AuthDirectives_unfold v (doc : DocumentNode) :
  hasV2AuthDirectives v doc
  = existsb (fun def => someNamed "auth" (def_directives def)) doc && (v =? 2)%Z.
Proof. unfold hasV2AuthDirectives. by rewrite containsAuthDir_fold. Qed.

(** C6.  [hasV2AuthDirectives] is true exactly when the transformer
    version is 2 and some top-level definition carries a directive named
    [auth]; it is false whenever the version is not 2; and it reads the
    definitions' own directives only: two documents whose definitions
    carry the same directives get the same answer, whatever their fields
    (and the fields' directives) are. *)
Theorem hasV2AuthDirectives_iff (transformerversion : Z) (doc : DocumentNode) :
  (hasV2AuthDirectives transformerversion doc = true ↔
   transformerversion = 2%Z ∧
   ∃ def dir, def ∈ doc ∧ dir ∈ orEmpty (def_directives def) ∧ dir_name dir = "auth")
  ∧ (transformerversion ≠ 2%Z → hasV2AuthDirectives transformerversion doc = false)
  ∧ (∀ doc' : DocumentNode,
        List.map def_directives doc' = List.map def_directives doc →
        hasV2AuthDirectives transformerversion doc'
        = hasV2AuthDirectives transformerversion doc).
Proof.
  split; [split|split].
  - rewrite hasV2AuthDirectives_unfold.
    intros [Hex Hv]%andb_true_iff. split; [by apply Z.eqb_eq|].
    apply existsb_exists in Hex as (def & Hin & Hauth).
    apply someNamed_true in Hauth as (dir & Hdir & Hname).
    exists def, dir. split; [by apply list_elem_of_In|done].
  - intros [Hv (def & dir & Hin & Hdir & Hname)].
    rewrite hasV2AuthDirectives_unfold. apply andb_true_iff. split; [|by apply Z.eqb_eq].
    apply existsb_exists. exists def. split; [by apply list_elem_of_In|].
    apply someNamed_true. eauto.
  - intros Hv. rewrite hasV2AuthDirectives_unfold.
    apply Z.eqb_neq in Hv. rewrite Hv. apply andb_false_r.
  - intros doc' Hsame. rewrite !hasV2AuthDirectives_unfold. f_equal.
    revert doc' Hsame. induction doc as [|def doc IH]; intros [|def' doc'] Hsame;
      simpl in *; try discriminate; [reflexivity|].
    injection Hsame as Hd Hrest. rewrite Hd. f_equal. by apply IH.
Qed.

(** The [model] directive of a type is what [find] returns: the first
    directive of the list whose name is [model]. *)
Lemma findModel_first typeObj modelDirective :
  findModel typeObj = Some modelDirective ↔
  ∃ before after,
    typeObj = (before ++ modelDirective :: after)%list ∧
    dir_name modelDirective = "model" ∧
    ∀ dir, dir ∈ before → dir_name dir ≠ "model".
Proof.
  unfold findModel. induction typeObj as [|d l IH]; simpl.
  - split; [discriminate|]. intros (b & a & Heq & _). by destruct b.
  - destruct (String.eqb (dir_name d) "model") eqn:E.
    + apply String.eqb_eq in E. split.
      * intros [= <-]. exists [], l. split; [done|]. split; [done|].
        intros dir Hin. by apply elem_of_nil in Hin.
      * intros ([|d' b] & a & Heq & Hname & Hfirst); simpl in Heq.
        -- congruence.
        -- injection Heq as <- _. exfalso. eapply Hfirst; [left|done].
    + apply String.eqb_neq in E. rewrite IH. split.
      * intros (b & a & -> & Hname & Hfirst). exists (d :: b), a.
        split; [done|]. split; [done|].
        intros dir [->|Hin]%elem_of_cons; [done|by apply Hfirst].
      * intros ([|d' b] & a & Heq & Hname & Hfirst); simpl in Heq.
        -- injection Heq as -> _. done.
        -- injection Heq as <- ->. exists b, a. split; [done|]. split; [done|].
           intros dir Hin. apply Hfirst. by right.
Qed.

Lemma levelFieldOffOrNull_true value :
  levelFieldOffOrNull value = true ↔
  ∃ fields level,
    value = ObjectValue fields ∧ ("level", level) ∈ fields ∧
    (stringValue level = Some "off" ∨ level = NullValue).
Proof.
  destruct value; simpl;
    try (split; [discriminate | by intros (? & ? & ? & _)]).
  rewrite existsb_exists. split.
  - intros ([name level] & Hin & H). apply andb_true_iff in H as [Hn Hv].
    apply String.eqb_eq in Hn as ->. exists fields, level.
    split; [done|]. split; [by apply list_elem_of_In|].
    apply orb_true_iff in Hv as [Hoff|Hnull].
    + left. unfold valueIsOff in Hoff. destruct (stringValue level); [|done].
      by apply String.eqb_eq in Hoff as ->.
    + right. by destruct level.
  - intros (fs & level & [= <-] & Hin & Hv). exists ("level", level).
    split; [by apply list_elem_of_In|]. simpl.
    destruct Hv as [Hoff| ->]; [|by rewrite orb_true_r].
    unfold valueIsOff. by rewrite Hoff.
Qed.

Lemma subscriptionOff_true typeObj :
  subscriptionOff typeObj = true ↔
  ∃ modelDirective arg,
    findModel typeObj = Some modelDirective ∧
    arg ∈ orEmpty (dir_arguments modelDirective) ∧
    arg_name arg = "subscriptions" ∧
    (arg_value arg = NullValue ∨
     ∃ fields level,
       arg_value arg = ObjectValue fields ∧ ("level", level) ∈ fields ∧
       (stringValue level = Some "off" ∨ level = NullValue)).
Proof.
  unfold subscriptionOff. rewrite existsb_exists. split.
  - intros (arg & Hin & Harg). destruct (findModel typeObj) as [d|]; [|destruct Hin].
    exists d, arg. split; [done|]. split; [by apply list_elem_of_In|].
    unfold subscriptionArgOff in Harg.
    destruct (String.eqb (arg_name arg) "subscriptions") eqn:E; [|done].
    apply String.eqb_eq in E. split; [done|].
    apply orb_true_iff in Harg as [Hlevel|Hnull].
    + right. by apply levelFieldOffOrNull_true.
    + left. by destruct (arg_value arg).
  - intros (d & arg & -> & Hin & Hname & Hv). exists arg.
    split; [by apply list_elem_of_In|]. unfold subscriptionArgOff.
    rewrite Hname. simpl. destruct Hv as [->|Hlevel]; [done|].
    apply levelFieldOffOrNull_true in Hlevel. by rewrite Hlevel.
Qed.

(** C7.  [displayAuthNotification] is true exactly when the transformer
    version is 2 and the directive map has a type whose [model]
    directive, the first directive named [model] in the list of the
    type, has an argument [subscriptions] that is the null literal, or
    an object literal with a field [level] that is [off] or the null
    literal, while the type's name is a member of the field-auth set. *)
Theorem displayAuthNotification_iff (transformerversion : Z)
    (directiveMap : gmap string (list DirectiveNode))
    (fieldDirectives : gset string) :
  displayAuthNotification transformerversion directiveMap fieldDirectives = true ↔
  transformerversion = 2%Z ∧
  ∃ typeName before modelDirective after args arg,
    directiveMap !! typeName = Some (before ++ modelDirective :: after)%list ∧
    dir_name modelDirective = "model" ∧
    Forall (fun dir => dir_name dir ≠ "model") before ∧
    dir_arguments modelDirective = Some args ∧
    arg ∈ args ∧
    arg_name arg = "subscriptions" ∧
    (arg_value arg = NullValue ∨
     ∃ fields level,
       arg_value arg = ObjectValue fields ∧ ("level", level) ∈ fields ∧
       (stringValue level = Some "off" ∨ level = NullValue)) ∧
    typeName ∈ fieldDirectives.
Proof.
  unfold displayAuthNotification. rewrite andb_true_iff, Z.eqb_eq, existsb_exists.
  split.
  - intros [([typeName typeObj] & Hin & H) Hv]. split; [done|].
    apply andb_true_iff in H as [Hoff Hmem].
    apply subscriptionOff_true in Hoff as (d & arg & Hfind & Harg & Hname & Hval).
    apply findModel_first in Hfind as (before & after & -> & Hmodel & Hfirst).
    apply bool_decide_eq_true in Hmem.
    apply list_elem_of_In, elem_of_map_to_list in Hin.
    destruct (dir_arguments d) as [args|] eqn:Hargs; [|by apply elem_of_nil in Harg].
    exists typeName, before, d, after, args, arg.
    split; [done|]. split; [done|]. split; [by apply Forall_forall|]. done.
  - intros [Hv (typeName & before & d & after & args & arg & Hlook & Hmodel & Hfirst
                & Hargs & Harg & Hname & Hval & Hmem)].
    split; [|done]. exists (typeName, (before ++ d :: after)%list). split.
    + by apply list_elem_of_In, elem_of_map_to_list.
    + apply andb_true_iff. split; [|by apply bool_decide_eq_true].
      apply subscriptionOff_true. exists d, arg.
      split; [|by rewrite Hargs].
      apply findModel_first. exists before, after.
      split; [done|]. split; [done|]. by apply Forall_forall.
Qed.

End DirectiveFacts.

Section DetectorFacts.
Import Resolvers.

Lemma matchLiteral_append text input rest :
  matchLiteral text input = Some rest ↔ input = text ++ rest.
Proof.
  revert input. induction text as [|a text IH]; intros input; simpl.
  - change ("" ++ rest) with rest. split; congruence.
  - change (String a text ++ rest) with (String a (text ++ rest)).
    destruct input as [|b input]; [split; discriminate|].
    destruct (Ascii.eqb a b) eqn:E.
    + apply Ascii.eqb_eq in E as ->. rewrite IH. split; congruence.
    + apply Ascii.eqb_neq in E. split; [discriminate|]. congruence.
Qed.

(** The guard starts with [#], which is no white space. *)
Lemma guard_not_at_white_space c rest :
  isWhiteSpace c = true → matchLiteral filterGuard (String c rest) = None.
Proof.
  intros Hws. unfold filterGuard. cbn [matchLiteral].
  destruct (Ascii.eqb "#" c) eqn:E; [|done].
  apply Ascii.eqb_eq in E as <-. discriminate.
Qed.

Lemma guardFollows_white_space c rest :
  isWhiteSpace c = true → guardFollows (String c rest) = guardFollows rest.
Proof. intros Hws. unfold guardFollows. cbn [skipWhiteSpace]. by rewrite Hws. Qed.

Lemma guardFollows_here c rest :
  isWhiteSpace c = false →
  guardFollows (String c rest)
  = match matchLiteral filterGuard (String c rest) with
    | Some _ => true
    | None => false
    end.
Proof. intros Hws. unfold guardFollows. cbn [skipWhiteSpace]. by rewrite Hws. Qed.

(** The lookahead [\s*] then guard: backtracking over the star does
    not help, the guard can only start where the white space ends. *)
Lemma lookahead_guard input pos :
  found (matchRegExp (Concat WhiteSpaceStar (Literal filterGuard)) input pos
                     (fun _ e => Some e))
  = guardFollows input.
Proof.
  cbn [matchRegExp]. revert pos.
  induction input as [|c rest IH]; intros pos; cbn [whiteSpaceStar].
  - unfold guardFollows. cbn [skipWhiteSpace]. by destruct (matchLiteral filterGuard "").
  - destruct (isWhiteSpace c) eqn:Hws.
    + rewrite (guardFollows_white_space c rest Hws), <- (IH (S pos)).
      destruct (whiteSpaceStar rest (S pos) _); [done|].
      by rewrite (guard_not_at_white_space c rest Hws).
    + rewrite (guardFollows_here c rest Hws).
      by destruct (matchLiteral filterGuard (String c rest)).
Qed.

Lemma negativeLookahead_guard input pos :
  found (matchRegExp (NegativeLookahead (Concat WhiteSpaceStar (Literal filterGuard)))
                     input pos (fun _ e => Some e))
  = negb (guardFollows input).
Proof.
  rewrite <- (lookahead_guard input pos). cbn [matchRegExp].
  by destruct (whiteSpaceStar input pos _).
Qed.

(** [\s*(?!\s*guard)] after the assignment: it matches exactly when
    no guard follows the white space, however the star is shortened. *)
Lemma star_then_lookahead input pos :
  found (whiteSpaceStar input pos
           (fun rest p =>
              matchRegExp (NegativeLookahead (Concat WhiteSpaceStar (Literal filterGuard)))
                          rest p (fun _ e => Some e)))
  = negb (guardFollows input).
Proof.
  revert pos. induction input as [|c rest IH]; intros pos; cbn [whiteSpaceStar].
  - apply negativeLookahead_guard.
  - destruct (isWhiteSpace c) eqn:Hws; [|apply negativeLookahead_guard].
    specialize (IH (S pos)).
    destruct (whiteSpaceStar rest (S pos) _).
    + by rewrite (guardFollows_white_space c rest Hws), <- IH.
    + apply negativeLookahead_guard.
Qed.

(** The pattern matches at the start of [input] exactly when the
    assignment stands there and no guard follows. *)
Lemma listQueryPattern_here input pos :
  found (matchRegExp listQueryPattern input pos (fun _ e => Some e))
  = match matchLiteral filterAssignment input with
    | Some rest => negb (guardFollows rest)
    | None => false
    end.
Proof.
  unfold listQueryPattern. cbn [matchRegExp].
  destruct (matchLiteral filterAssignment input) as [rest|]; [|done].
  apply star_then_lookahead.
Qed.

Lemma execFrom_found input pos :
  found (execFrom listQueryPattern input pos) = true ↔
  ∃ before rest,
    input = before ++ filterAssignment ++ rest ∧ guardFollows rest = false.
Proof.
  revert pos. induction input as [|c input IH]; intros pos; cbn [execFrom].
  - pose proof (listQueryPattern_here "" pos) as Hhere.
    destruct (matchRegExp listQueryPattern "" pos _); [discriminate|].
    split; [done|]. intros (before & rest & Heq & _).
    destruct before; discriminate.
  - pose proof (listQueryPattern_here (String c input) pos) as Hhere.
    destruct (matchRegExp listQueryPattern (String c input) pos _).
    + split; [intros _|done]. unfold found in Hhere.
      destruct (matchLiteral filterAssignment (String c input)) as [rest|] eqn:Hlit;
        [|discriminate].
      apply matchLiteral_append in Hlit. exists "", rest. split; [done|].
      by destruct (guardFollows rest).
    + rewrite IH. split.
      * intros (before & rest & -> & Hguard). by exists (String c before), rest.
      * intros ([|b before] & rest & Heq & Hguard).
        -- exfalso. change ("" ++ filterAssignment ++ rest)
             with (filterAssignment ++ rest) in Heq.
           apply matchLiteral_append in Heq. rewrite Heq, Hguard in Hhere. discriminate.
        -- injection Heq as _ ->. by exists before, rest.
Qed.

(** A template tested by a fresh regular expression is reported exactly
    when it holds the filter assignment somewhere with no guard after
    it, white space apart. *)
Lemma test_fresh_unguarded code :
  fst (test listQueryPattern 0 code) = true ↔
  ∃ before rest,
    code = before ++ filterAssignment ++ rest ∧ guardFollows rest = false.
Proof.
  rewrite <- (execFrom_found code 0%nat). unfold test. cbn [suffixFrom].
  by destruct (execFrom listQueryPattern code 0).
Qed.

(** A failed [test] leaves [lastIndex] at 0. *)
Lemma test_false_resets re lastIndex code :
  fst (test re lastIndex code) = false → snd (test re lastIndex code) = 0%nat.
Proof.
  unfold test. destruct (suffixFrom lastIndex code); [|done].
  by destruct (execFrom re _ lastIndex).
Qed.

Lemma filterTest_empty re codes :
  filterTest re 0 codes = [] ↔ Forall (fun code => fst (test re 0 code) = false) codes.
Proof.
  induction codes as [|code codes IH]; cbn [filterTest].
  - split; [constructor|done].
  - pose proof (test_false_resets re 0 code) as Hreset.
    rewrite Forall_cons.
    destruct (test re 0 code) as [[] lastIndex]; cbn [fst snd] in *.
    + split; [discriminate|]. intros [? _]. discriminate.
    + rewrite Hreset by done. rewrite IH. tauto.
Qed.

(** The policy only asks whether [resolversToSecure] is empty, and that
    much does not depend on [lastIndex]: the list is empty exactly when
    no list request template holds an unguarded filter assignment. *)
Lemma resolversToSecure_empty resolvers :
  resolversToSecure resolvers = [] ↔
  ∀ code, code ∈ resolversToCheck resolvers →
          ¬ ∃ before rest,
              code = before ++ filterAssignment ++ rest ∧ guardFollows rest = false.
Proof.
  unfold resolversToSecure. rewrite filterTest_empty, Forall_forall.
  split; intros H code Hin; specialize (H code Hin).
  - rewrite <- test_fresh_unguarded. by rewrite H.
  - rewrite <- test_fresh_unguarded in H. by destruct (fst (test _ _ code)).
Qed.

End DetectorFacts.

Section NodeInduction.
Import Fs.
Variable P : Node → Prop.
Hypothesis HFile : ∀ content, P (File content).
Hypothesis HDirectory :
  ∀ entries, Forall (fun e => P (snd e)) entries → P (Directory entries).
Hypothesis HOther : ∀ read, P (Other read).

(** Induction over a tree: the claim holds of a directory when it holds
    of every node listed in it. *)
Fixpoint Node_tree_ind (node : Node) : P node :=
  match node with
  | File content => HFile content
  | Directory entries =>
      HDirectory entries
        ((fix go (es : list (string * Node)) : Forall (fun e => P (snd e)) es :=
            match es return Forall (fun e => P (snd e)) es with
            | [] => List.Forall_nil _
            | e :: es' =>
                @List.Forall_cons _ (fun e => P (snd e)) e es'
                                  (Node_tree_ind (snd e)) (go es')
            end) entries)
  | Other read => HOther read
  end.

End NodeInduction.

Section SchemaTouchFacts.
Import Fs.

Lemma filesIn_cons name node rest :
  filesIn ((name, node) :: rest) = (below name (filesOf node) ++ filesIn rest)%list.
Proof. reflexivity. Qed.

Lemma below_hidden name files :
  isHiddenFile name = true → noVisibleFile (below name files).
Proof.
  intros Hh. unfold noVisibleFile, below. apply List.Forall_forall.
  intros pc [q [<- _]]%in_map_iff. simpl. by rewrite Hh.
Qed.

Lemma below_noVisible name files :
  noVisibleFile files → noVisibleFile (below name files).
Proof.
  unfold noVisibleFile, below. intros H. apply List.Forall_forall.
  intros pc [q [<- Hq]]%in_map_iff. simpl.
  rewrite List.Forall_forall in H. rewrite (H q Hq). apply andb_false_r.
Qed.

Lemma noVisibleFile_app l1 l2 :
  noVisibleFile l1 → noVisibleFile l2 → noVisibleFile (l1 ++ l2).
Proof. unfold noVisibleFile. intros. by apply Forall_app. Qed.

Lemma firstVisibleTouched_later l before after :
  noVisibleFile l → firstVisibleTouched before after →
  firstVisibleTouched (l ++ before) (l ++ after).
Proof.
  intros Hl (l1 & p & c & l2 & -> & -> & Hp & Hl1).
  exists (l ++ l1)%list, p, c, l2. rewrite <- !app_assoc.
  repeat split; try done. by apply noVisibleFile_app.
Qed.

Lemma firstVisibleTouched_below name before after rest :
  isHiddenFile name = false → firstVisibleTouched before after →
  firstVisibleTouched (below name before ++ rest) (below name after ++ rest).
Proof.
  intros Hn (l1 & p & c & l2 & -> & -> & Hp & Hl1).
  exists (below name l1), (name :: p), c, (below name l2 ++ rest)%list.
  unfold below. rewrite !List.map_app. simpl. rewrite <- !app_assoc. simpl.
  repeat split; try done.
  - by rewrite Hn.
  - by apply below_noVisible.
Qed.

Lemma walk_spec entries :
  Forall (fun e => visitSpec (snd e) (visitEntry (snd e))) entries →
  visitSpec (Directory entries)
            (Directory (fst (walk visitEntry entries)), snd (walk visitEntry entries)).
Proof.
  unfold visitSpec.
  induction 1 as [|[name node] rest Hnode _ IH]; simpl.
  - split; [done|]. split; [done|]. constructor.
  - simpl in Hnode, IH. destruct IH as [IHshape IH].
    injection IHshape as IHshape.
    change (flat_map _ rest) with (filesIn rest) in *.
    destruct (isHiddenFile name) eqn:Hh.
    + destruct (walk visitEntry rest) as [rest' found] eqn:Hw. simpl in *.
      change (flat_map _ rest') with (filesIn rest') in *.
      split; [by rewrite IHshape|].
      destruct found.
      * apply firstVisibleTouched_later; [by apply below_hidden|done].
      * destruct IH as [[= ->] IH]. split; [done|].
        apply noVisibleFile_app; [by apply below_hidden|done].
    + destruct (visitEntry node) as [node' found] eqn:Hv.
      destruct Hnode as [Hshape Hnode]. simpl in Hshape, Hnode.
      destruct found.
      * simpl. split; [by rewrite Hshape|].
        change (flat_map _ rest) with (filesIn rest).
        by apply firstVisibleTouched_below.
      * destruct Hnode as [-> Hnone].
        destruct (walk visitEntry rest) as [rest' found'] eqn:Hw. simpl in *.
        change (flat_map _ rest') with (filesIn rest') in *.
        split; [by rewrite IHshape|].
        destruct found'.
        -- apply firstVisibleTouched_later; [by apply below_noVisible|done].
        -- destruct IH as [[= ->] IH]. split; [done|].
           apply noVisibleFile_app; [by apply below_noVisible|done].
Qed.

Lemma visitEntry_spec node : visitSpec node (visitEntry node).
Proof.
  induction node as [content|entries IH|] using Node_tree_ind.
  - split; [done|]. simpl. exists [], [], content, []. repeat split; constructor.
  - simpl. pose proof (walk_spec entries IH) as H.
    by destruct (walk visitEntry entries).
  - split; [done|]. split; [done|]. constructor.
Qed.

Lemma modifyGraphQLSchemaDirectory_spec files :
  visitSpec (Directory files)
            (Directory (fst (modifyGraphQLSchemaDirectory files)),
             snd (modifyGraphQLSchemaDirectory files)).
Proof.
  apply walk_spec, List.Forall_forall. intros e _. apply visitEntry_spec.
Qed.

(** C9.  [modifyGraphQLSchema] adds one blank to at most one file and
    leaves everything else as it is.  When [schema.graphql] exists it is
    that file.  Otherwise, when the [schema] directory exists, the
    tree keeps its names, kinds and order, and either the first plain
    file in depth-first order whose path has no hidden component gets
    the blank and no other file changes, or there is no such file and
    the tree is unchanged.  When neither exists nothing changes.  The
    resolver directory is never touched. *)
Theorem modifyGraphQLSchema_touches_at_most_one (apiResourceDir : ApiResourceDir) :
  resolverDirectory (modifyGraphQLSchema apiResourceDir)
  = resolverDirectory apiResourceDir ∧
  match schemaFile apiResourceDir, schemaDirectory apiResourceDir with
  | Some content, _ =>
      schemaFile (modifyGraphQLSchema apiResourceDir) = Some (content ++ " ") ∧
      schemaDirectory (modifyGraphQLSchema apiResourceDir)
      = schemaDirectory apiResourceDir
  | None, Some files =>
      schemaFile (modifyGraphQLSchema apiResourceDir) = None ∧
      ∃ files',
        schemaDirectory (modifyGraphQLSchema apiResourceDir) = Some files' ∧
        shapeOf (Directory files') = shapeOf (Directory files) ∧
        (firstVisibleTouched (filesIn files) (filesIn files') ∨
         files' = files ∧ noVisibleFile (filesIn files))
  | None, None => modifyGraphQLSchema apiResourceDir = apiResourceDir
  end.
Proof.
  unfold modifyGraphQLSchema.
  destruct (schemaFile apiResourceDir) as [content|] eqn:Hfile;
    [|destruct (schemaDirectory apiResourceDir) as [files|] eqn:Hdir]; simpl.
  - done.
  - split; [done|]. split; [done|].
    exists (fst (modifyGraphQLSchemaDirectory files)). split; [done|].
    destruct (modifyGraphQLSchemaDirectory_spec files) as [Hshape Hfiles].
    simpl in Hshape, Hfiles. split; [done|].
    destruct (snd (modifyGraphQLSchemaDirectory files)).
    + by left.
    + right. destruct Hfiles as [[= ->] Hnone]. done.
  - done.
Qed.

(** The scenario of a schema directory with one hidden file and one
    nested directory that holds a single real file: exactly the nested
    file gets the blank. *)
Example modifyGraphQLSchema_nested_file :
  modifyGraphQLSchema
    {| schemaFile := None;
       schemaDirectory :=
         Some [(".DS_Store", File "x");
               ("models", Directory [("todo.graphql", File "type Todo")])];
       resolverDirectory := None |}
  = {| schemaFile := None;
       schemaDirectory :=
         Some [(".DS_Store", File "x");
               ("models", Directory [("todo.graphql", File "type Todo ")])];
       resolverDirectory := None |}.
Proof. reflexivity. Qed.

End SchemaTouchFacts.

Section ResolverLoaderFacts.
Import Fs.

Lemma readFile_readable node content :
  readFile node = Resolved content ↔ readable node content.
Proof.
  unfold readable. destruct node as [c|entries|read]; simpl.
  - split; [intros [= ->]; by left|]. by intros [[= ->]|[=]].
  - split; [discriminate|]. by intros [[=]|[=]].
  - split; [intros ->; by right|]. by intros [[=]|[= ->]].
Qed.

Lemma readFile_unreadable node error :
  readFile node = Rejected error ↔ unreadable node error.
Proof.
  unfold unreadable. destruct node as [c|entries|read]; simpl.
  - split; [discriminate|]. by intros [(? & [=] & _)|[=]].
  - split; [intros [= <-]; left; by eexists|]. by intros [(? & _ & ->)|[=]].
  - split; [intros ->; by right|]. by intros [(? & [=] & _)|[= ->]].
Qed.

Lemma setProperty_fresh obj key value :
  key ∉ List.map fst obj → setProperty obj key value = (obj ++ [(key, value)])%list.
Proof.
  induction obj as [|[k v] obj IH]; simpl; [done|].
  intros Hfresh. apply not_elem_of_cons in Hfresh as [Hne Hfresh].
  destruct (String.eqb k key) eqn:E.
  - apply String.eqb_eq in E. congruence.
  - by rewrite IH.
Qed.

Lemma loadedFrom_keys resolverFiles name :
  name ∈ List.map fst (loadedFrom resolverFiles) → name ∈ List.map fst resolverFiles.
Proof.
  induction resolverFiles as [|[n node] rest IH]; simpl; [done|].
  rewrite List.map_app, elem_of_app. intros [Hhere|Hrest].
  - destruct (readFile node); simpl in Hhere; [|by apply elem_of_nil in Hhere].
    destruct (_ || _); simpl in Hhere; [by apply elem_of_nil in Hhere|].
    apply list_elem_of_singleton in Hhere as ->. left.
  - right. by apply IH.
Qed.

Lemma loadedFrom_NoDup resolverFiles :
  NoDup (List.map fst resolverFiles) → NoDup (List.map fst (loadedFrom resolverFiles)).
Proof.
  induction resolverFiles as [|[n node] rest IH]; simpl; [constructor|].
  intros [Hfresh Hrest]%NoDup_cons. rewrite List.map_app.
  assert (n ∉ List.map fst (loadedFrom rest)) as Hn
    by (intros Hin; by apply Hfresh, loadedFrom_keys).
  destruct (readFile node); simpl; [|by apply IH].
  destruct (_ || _); simpl; [by apply IH|].
  apply NoDup_cons. split; [done|by apply IH].
Qed.

Lemma loadResolverFiles_readable resolverFiles resolvers :
  NoDup (List.map fst resolverFiles) →
  (∀ name, name ∈ List.map fst resolverFiles → name ∉ List.map fst resolvers) →
  visibleReadable resolverFiles →
  loadResolverFiles resolverFiles resolvers
  = Resolved (resolvers ++ loadedFrom resolverFiles)%list.
Proof.
  revert resolvers.
  induction resolverFiles as [|[n node] rest IH]; intros resolvers Hdup Hfresh Hplain; simpl.
  - by rewrite app_nil_r.
  - simpl in Hdup. apply NoDup_cons in Hdup as [Hn Hdup].
    apply Forall_cons in Hplain as [Hnode Hplain]. simpl in Hnode.
    destruct (isHiddenFile n) eqn:Hh.
    + rewrite IH; try done.
      * by destruct (readFile node).
      * intros name Hin. apply Hfresh. simpl. by right.
    + destruct (Hnode eq_refl) as [content Hread%readFile_readable]. rewrite Hread.
      simpl. unfold assign. destruct (String.eqb n "__proto__") eqn:Hproto; simpl.
      * rewrite IH; try done. intros name Hin. apply Hfresh. simpl. by right.
      * rewrite setProperty_fresh by (apply Hfresh; simpl; left).
        rewrite IH; try done.
        -- by rewrite <- app_assoc.
        -- intros name Hin. rewrite List.map_app. simpl.
           rewrite elem_of_app, list_elem_of_singleton.
           intros [Hold| ->]; [|done].
           revert Hold. apply Hfresh. simpl. by right.
Qed.

Lemma loadResolverFiles_rejects before name node after error resolvers :
  visibleReadable before →
  isHiddenFile name = false →
  unreadable node error →
  loadResolverFiles (before ++ (name, node) :: after) resolvers = Rejected error.
Proof.
  intros Hbefore Hvisible Hnode%readFile_unreadable. revert resolvers.
  induction Hbefore as [|[n node'] before Hread _ IH]; intros resolvers; simpl.
  - by rewrite Hvisible, Hnode.
  - simpl in Hread. destruct (isHiddenFile n); [by apply IH|].
    destruct (Hread eq_refl) as [content ->%readFile_readable]. by apply IH.
Qed.

Lemma loadedFrom_elem resolverFiles name content :
  (name, content) ∈ loadedFrom resolverFiles ↔
  (∃ node, (name, node) ∈ resolverFiles ∧ readable node content) ∧
  isHiddenFile name = false ∧ name ≠ "__proto__".
Proof.
  induction resolverFiles as [|[n node] rest IH]; simpl.
  - split; [by intros ?%elem_of_nil | by intros [(? & ?%elem_of_nil & _) _]].
  - rewrite elem_of_app, IH. clear IH. split.
    + intros [Hhere|((node' & Hin & Hread) & Hh & Hp)].
      * destruct (readFile node) as [text|] eqn:Hnode; simpl in Hhere;
          [|by apply elem_of_nil in Hhere].
        destruct (isHiddenFile n) eqn:Hh; simpl in Hhere; [by apply elem_of_nil in Hhere|].
        destruct (String.eqb n "__proto__") eqn:Hp; [by apply elem_of_nil in Hhere|].
        apply list_elem_of_singleton in Hhere as [= -> ->].
        apply String.eqb_neq in Hp. apply readFile_readable in Hnode.
        split; [|done]. exists node. split; [left|done].
      * split; [|done]. exists node'. split; [by right|done].
    + intros ((node' & [[= -> ->]|Hin]%elem_of_cons & Hread) & Hh & Hp).
      * left. apply readFile_readable in Hread. rewrite Hread. simpl. rewrite Hh.
        apply String.eqb_neq in Hp. rewrite Hp. simpl. left.
      * right. split; [by exists node'|done].
Qed.

(** C8 (as amended).  [loadResolvers] resolves with an empty object
    when [build/resolvers] does not exist.  When the directory exists
    and every entry with a visible name can be read (a plain file, or a
    link that leads to one), it resolves with an object whose keys are
    distinct and which holds, for every name other than [__proto__],
    exactly the entries with a visible name, each under its name with
    the text read.  When some entry with a visible name cannot be read
    (a directory, a link that leads nowhere), the call rejects with the
    error of the first such entry. *)
Theorem loadResolvers_plain_files (apiResourceDirectory : ApiResourceDir) :
  (resolverDirectory apiResourceDirectory = None →
   loadResolvers apiResourceDirectory = Resolved [])
  ∧ (∀ resolverFiles,
        resolverDirectory apiResourceDirectory = Some resolverFiles →
        NoDup (List.map fst resolverFiles) →
        visibleReadable resolverFiles →
        ∃ resolvers,
          loadResolvers apiResourceDirectory = Resolved resolvers ∧
          NoDup (List.map fst resolvers) ∧
          ∀ name content,
            name ≠ "__proto__" →
            ((name, content) ∈ resolvers ↔
             (∃ node, (name, node) ∈ resolverFiles ∧ readable node content) ∧
             isHiddenFile name = false))
  ∧ (∀ before name node after error,
        resolverDirectory apiResourceDirectory
        = Some (before ++ (name, node) :: after)%list →
        visibleReadable before →
        isHiddenFile name = false →
        unreadable node error →
        loadResolvers apiResourceDirectory = Rejected error).
Proof.
  unfold loadResolvers. split; [|split].
  - by intros ->.
  - intros resolverFiles -> Hdup Hplain.
    exists (loadedFrom resolverFiles). split; [|split].
    + rewrite loadResolverFiles_readable; try done.
      intros name _ Hin. by apply elem_of_nil in Hin.
    + by apply loadedFrom_NoDup.
    + intros name content Hname. rewrite loadedFrom_elem. tauto.
  - intros before name node after error -> Hbefore Hvisible Hnode.
    by apply loadResolverFiles_rejects.
Qed.

(** The theorem at a directory with a hidden file, two templates, one
    of them behind a link, and at one with a link that leads nowhere. *)
Lemma loadResolvers_plain_files_witness :
  (∃ resolvers,
     loadResolvers
       {| schemaFile := None; schemaDirectory := None;
          resolverDirectory :=
            Some [(".gitkeep", File "");
                  ("Query.listTodos.req.vtl", File "a");
                  ("Query.getTodo.req.vtl", Other (Resolved "b"))] |}
     = Resolved resolvers ∧
     NoDup (List.map fst resolvers) ∧
     ∀ name content,
       name ≠ "__proto__" →
       ((name, content) ∈ resolvers ↔
        (∃ node, (name, node) ∈ [(".gitkeep", File "");
                                 ("Query.listTodos.req.vtl", File "a");
                                 ("Query.getTodo.req.vtl", Other (Resolved "b"))] ∧
                 readable node content) ∧
        isHiddenFile name = false))
  ∧ loadResolvers
      {| schemaFile := None; schemaDirectory := None;
         resolverDirectory :=
           Some [("Query.listTodos.req.vtl", File "a");
                 ("Query.listPosts.req.vtl", Other (Rejected "ENOENT"))] |}
    = Rejected "ENOENT".
Proof.
  split.
  - apply (proj1 (proj2 (loadResolvers_plain_files
      {| schemaFile := None; schemaDirectory := None;
         resolverDirectory :=
           Some [(".gitkeep", File "");
                 ("Query.listTodos.req.vtl", File "a");
                 ("Query.getTodo.req.vtl", Other (Resolved "b"))] |}))).
    + reflexivity.
    + apply (bool_decide_unpack _). vm_compute. exact I.
    + apply List.Forall_cons; [simpl; intros _; eexists; by left|].
      apply List.Forall_cons; [simpl; intros _; eexists; by left|].
      apply List.Forall_cons; [simpl; intros _; eexists; by right|].
      apply List.Forall_nil.
  - apply (proj2 (proj2 (loadResolvers_plain_files
      {| schemaFile := None; schemaDirectory := None;
         resolverDirectory :=
           Some [("Query.listTodos.req.vtl", File "a");
                 ("Query.listPosts.req.vtl", Other (Rejected "ENOENT"))] |}))
      [("Query.listTodos.req.vtl", File "a")] "Query.listPosts.req.vtl"
      (Other (Rejected "ENOENT")) [] "ENOENT").
    + reflexivity.
    + apply List.Forall_cons; [simpl; intros _; eexists; by left|]. apply List.Forall_nil.
    + reflexivity.
    + by right.
Defined.

(** C8, as stated, fails: a directory among the entries of an existing
    [build/resolvers] makes the call reject with the error of
    [readFile], and no object is returned; and a file named [__proto__]
    is no property of the object returned, the assignment reaching the
    setter inherited from [Object.prototype]. *)
Lemma loadResolvers_rejects_directory_entry :
  loadResolvers
    {| schemaFile := None; schemaDirectory := None;
       resolverDirectory :=
         Some [("Query.listTodos.req.vtl", File "a"); ("functions", Directory [])] |}
  = Rejected "EISDIR"
  ∧ loadResolvers
      {| schemaFile := None; schemaDirectory := None;
         resolverDirectory :=
           Some [("__proto__", File "a"); ("Query.getTodo.req.vtl", File "b")] |}
    = Resolved [("Query.getTodo.req.vtl", "b")].
Proof. split; reflexivity. Qed.

(** A template behind a symbolic link is loaded like a plain file:
    [fs.readFile] follows the link. *)
Example loadResolvers_linked_template :
  loadResolvers
    {| schemaFile := None; schemaDirectory := None;
       resolverDirectory := Some [("Query.listTodos.req.vtl", Other (Resolved "a"))] |}
  = Resolved [("Query.listTodos.req.vtl", "a")].
Proof. reflexivity. Qed.

(** The scenario of an empty build output directory. *)
Example loadResolvers_empty_directory :
  loadResolvers {| schemaFile := None; schemaDirectory := None;
                   resolverDirectory := Some [] |} = Resolved [].
Proof. reflexivity. Qed.

End ResolverLoaderFacts.

Section PolicyFacts.
Import Ast Directives Resolvers Fs Policy Measures.
Variable readSchema : ApiResourceDir → Result string.
Variable parse : string → Result DocumentNode.
Variable collectDirectivesByType : string → Result (gmap string (list DirectiveNode)).
Variable collectDirectivesByTypeNames : string → Result (gmap string (list string)).

Lemma bind_returned {A B} (m : Async A) (f : A → Async B) p x p' :
  m p = Returned x p' → (y <- m ;; f y) p = f x p'.
Proof. intros Hm. unfold bind. by rewrite Hm. Qed.

Lemma bind_exited {A B} (m : Async A) (f : A → Async B) p code p' :
  m p = Exited code p' → (y <- m ;; f y) p = Exited code p'.
Proof. intros Hm. unfold bind. by rewrite Hm. Qed.

Lemma bind_threw {A B} (m : Async A) (f : A → Async B) p error p' :
  m p = Threw error p' → (y <- m ;; f y) p = Threw error p'.
Proof. intros Hm. unfold bind. by rewrite Hm. Qed.

(** *** The helpers *)

(** [setNotificationFlag] runs to its end whatever the project: after
    [ensureFeatureFlag] the configuration exists, the flag is written
    there and the values are reloaded. *)
Lemma setNotificationFlag_effect flagName value (p : Process) :
  ∃ p',
    setNotificationFlag flagName value p = Returned tt p' ∧
    prompts p' = prompts p ∧ events p' = events p ∧
    resourceDirs (world p') = resourceDirs (world p) ∧
    sameProject (world p) (world p') ∧
    flagSet flagName value (world p) (world p').
Proof.
  assert (∀ config : gmap string bool, ∀ values : gmap string bool,
            (<[flagName := value]> config ∪ values) !! flagName = Some value) as Hreload.
  { intros config values. apply lookup_union_Some_l, lookup_insert_eq. }
  unfold setNotificationFlag, await, ensureFeatureFlag, bind, getCLIJSON, gets,
    setCLIJSON, reloadValues, setWorld, ret, flagSet.
  simpl.
  destruct (cliJSON (world p)) as [features|] eqn:Hcfg; simpl.
  - destruct (features !! flagName) as [old|] eqn:Hflag; simpl; rewrite ?Hcfg; simpl;
      eexists; (split; [reflexivity|]); simpl;
      (split; [done|]); (split; [done|]); (split; [done|]); (split; [done|]);
      (split; [by apply Hreload|]); eexists; (split; [reflexivity|]);
      (split; [apply lookup_insert_eq|]); intros ? [= <-] other Hother;
      rewrite ?insert_insert_eq; by rewrite lookup_insert_ne.
  - eexists. split; [reflexivity|]. simpl.
    split; [done|]. split; [done|]. split; [done|]. split; [done|].
    split; [by apply Hreload|]. eexists. split; [reflexivity|].
    split; [apply lookup_insert_eq|]. done.
Qed.

Lemma flagEffect_cleared flagName (w w' : World) :
  flagEffect (Some flagName) w w' →
  default false (flagValues w' !! flagName) = false ∧
  ∃ config, cliJSON w' = Some config ∧ config !! flagName = Some false.
Proof.
  intros [Hflags (config & Hcfg & Hoff & _)]. split; [by rewrite Hflags|]. by exists config.
Qed.

Lemma flagSet_after flagName value (w w1 w2 : World) :
  flagEffect None w w1 → flagSet flagName value w1 w2 → flagSet flagName value w w2.
Proof.
  intros [Hcfg _] [Hflags (config & Hcfg2 & Hvalue & Hothers)]. split; [done|].
  exists config. split; [done|]. split; [done|]. by rewrite <- Hcfg.
Qed.

(** A call that only clears the flag. *)
Lemma clear_quietly {A} flagName (x : A) (p : Process) :
  quietly (Some flagName) p x ((await (setNotificationFlag flagName false) ;; ret x) p).
Proof.
  destruct (setNotificationFlag_effect flagName false p)
    as (p' & Hset & Hn & Hev & Hdirs & Hsame & Hflags).
  unfold await. rewrite (bind_returned _ _ _ _ _ Hset). by exists p'.
Qed.

(** The call of [modifyGraphQLSchema] on an existing directory:
    [modifyGraphQLSchema d] replaces the directory [d]. *)
Lemma callModifyGraphQLSchema_effect name d (p : Process) :
  resourceDirs (world p) !! name = Some d →
  ∃ p',
    callModifyGraphQLSchema name p = Returned tt p' ∧
    prompts p' = prompts p ∧
    events p' = (events p ++ [ModifyGraphQLSchema name])%list ∧
    resourceDirs (world p') = <[name := modifyGraphQLSchema d]> (resourceDirs (world p)) ∧
    sameProject (world p) (world p') ∧
    flagEffect None (world p) (world p').
Proof.
  intros Hdir.
  unfold callModifyGraphQLSchema, bind, emit, gets, setDirectory, setWorld, ret.
  simpl. rewrite Hdir. eexists. split; [reflexivity|]. simpl. by repeat split.
Qed.

(** The prompt: with the answer Yes the caller goes on; with the answer
    No one success event is emitted and the process exits with code 0,
    nothing of the world having changed. *)
Lemma promptAndDecline_effect (p : Process) :
  if answers (world p) (prompts p)
  then ∃ p',
         promptAndDecline p = Returned tt p' ∧
         world p' = world p ∧ prompts p' = S (prompts p) ∧
         events p' = (events p ++ [BlankLine; Prompt true])%list
  else declined p (promptAndDecline p).
Proof.
  unfold promptAndDecline, declined, await, bind, blankLine, emitSuccess, emit, yesOrNo,
    exitOnNextTick, ret.
  simpl.
  destruct (answers (world p) (prompts p)); simpl; eexists; (split; [reflexivity|]);
    simpl; repeat split; by rewrite <- ?app_assoc.
Qed.

Lemma declined_bind {A B} (m : Async A) (f : A → Async B) (p : Process) :
  declined p (m p) → declined p ((x <- m ;; f x) p).
Proof.
  intros (p' & Hm & Hrest). exists p'. by rewrite (bind_exited _ _ _ _ _ Hm).
Qed.

(** The prompt and the dropped call of [modifyGraphQLSchema] that
    follows it in [notifyFieldAuthSecurityChange] and
    [notifyListQuerySecurityChange]. *)
Lemma prompt_then_call name d (p : Process) :
  resourceDirs (world p) !! name = Some d →
  asked None name d p true
    ((promptAndDecline ;; fireAndForget (callModifyGraphQLSchema name) ;; ret true) p).
Proof.
  intros Hdir. unfold asked. pose proof (promptAndDecline_effect p) as Hprompt.
  destruct (answers (world p) (prompts p)); [|by apply declined_bind].
  destruct Hprompt as (p1 & Hp1 & Hw1 & Hn1 & Hev1).
  rewrite (bind_returned _ _ _ _ _ Hp1).
  destruct (callModifyGraphQLSchema_effect name d p1)
    as (p2 & Hp2 & Hn2 & Hev2 & Hdirs2 & Hsame2 & Hflags2); [by rewrite Hw1|].
  assert (fireAndForget (callModifyGraphQLSchema name) p1 = Returned tt p2) as Hcall
    by (unfold fireAndForget; by rewrite Hp2).
  rewrite (bind_returned _ _ _ _ _ Hcall). exists p2. rewrite Hw1 in *.
  split; [done|]. split; [congruence|].
  split; [by rewrite Hev2, Hev1, <- app_assoc|]. done.
Qed.

Lemma getApiResourceDir_eq (p : Process) :
  getApiResourceDir p
  = Returned match appSyncApiNames (world p) with
             | name :: _ => if existsSync name p then Some name else None
             | [] => None
             end p.
Proof.
  unfold getApiResourceDir, containsGraphQLApi, await, bind, gets, ret.
  destruct (appSyncApiNames (world p)) as [|name names] eqn:Hnames; simpl; [done|].
  destruct (existsSync name p); simpl; [by rewrite Hnames|done].
Qed.

Lemma existsSync_lookup name (p : Process) :
  existsSync name p = bool_decide (is_Some (resourceDirs (world p) !! name)).
Proof. done. Qed.

Lemma bind_settle {A B} (r : Result A) (f : A → Async B) (p : Process) :
  (x <- settle r ;; f x) p
  = match r with
    | Resolved x => f x p
    | Rejected error => Threw error p
    end.
Proof. unfold bind, settle. by destruct r. Qed.

Lemma bind_read {B} name d (f : string → Async B) (p : Process) :
  resourceDirs (world p) !! name = Some d →
  (schema <- await (readProjectConfiguration readSchema name) ;; f schema) p
  = match readSchema d with
    | Resolved schema => f schema p
    | Rejected error => Threw error p
    end.
Proof.
  intros Hdir. unfold await, readProjectConfiguration, bind, gets, directoryAt, settle.
  rewrite Hdir. simpl. by destruct (readSchema d).
Qed.

(** *** Each policy follows its verdict *)

Lemma notifyListQuerySecurityChange_run (p : Process) :
  follows None (listQueryVerdict readSchema parse (world p)) p false true
    (notifyListQuerySecurityChange readSchema parse p).
Proof.
  remember (notifyListQuerySecurityChange readSchema parse p) as o eqn:Ho.
  unfold notifyListQuerySecurityChange, await in Ho.
  rewrite (bind_returned _ _ _ _ _ (getApiResourceDir_eq p)) in Ho.
  unfold listQueryVerdict.
  destruct (appSyncApiNames (world p)) as [|name names]; [done|].
  unfold existsSync in Ho.
  destruct (resourceDirs (world p) !! name) as [d|] eqn:Hdir.
  2: { by rewrite bool_decide_eq_false_2 in Ho by (by intros [? ?]). }
  rewrite bool_decide_eq_true_2 in Ho by done.
  unfold listQueryOn in Ho. rewrite (bind_read name d _ p Hdir) in Ho.
  destruct (readSchema d) as [schema|error]; [|done].
  unfold bind at 1, gets at 1 in Ho. unfold directoryAt, await in Ho.
  rewrite Hdir, bind_settle in Ho. simpl in Ho.
  destruct (loadResolvers d) as [resolvers|error]; [|done].
  destruct (length (resolversToSecure resolvers) =? 0)%nat; [done|].
  rewrite bind_settle in Ho.
  destruct (parse schema) as [doc|error]; [|done].
  unfold bind at 1, gets at 1 in Ho.
  destruct (hasV2AuthDirectives _ doc); [|done].
  subst o. by apply prompt_then_call.
Qed.

Lemma asked_clear flagName name d (p : Process) (o : Outcome bool) :
  asked None name d p true o →
  asked (Some flagName) name d p true
    match o with
    | Returned schemaModified p' =>
        (await (setNotificationFlag flagName false) ;; ret schemaModified) p'
    | Threw error p' => Threw error p'
    | Exited code p' => Exited code p'
    end.
Proof.
  unfold asked. destruct (answers (world p) (prompts p)).
  - intros (p1 & -> & Hn1 & Hev1 & Hdirs1 & Hsame1 & Hflags1).
    destruct (setNotificationFlag_effect flagName false p1)
      as (p2 & Hset & Hn2 & Hev2 & Hdirs2 & Hsame2 & Hflags2).
    unfold await. rewrite (bind_returned _ _ _ _ _ Hset). exists p2.
    split; [done|]. split; [congruence|]. split; [congruence|]. split; [congruence|].
    split.
    { destruct Hsame1 as (? & ? & ? & ?), Hsame2 as (? & ? & ? & ?).
      repeat split; congruence. }
    by eapply flagSet_after.
  - intros (p1 & -> & Hrest). by exists p1.
Qed.

Lemma notifyFieldAuthSecurityChange_run (p : Process) :
  follows (Some "showfieldauthnotification")
    (fieldAuthVerdict readSchema parse collectDirectivesByType (world p)) p false true
    (notifyFieldAuthSecurityChange readSchema parse collectDirectivesByType p).
Proof.
  remember (notifyFieldAuthSecurityChange readSchema parse collectDirectivesByType p)
    as o eqn:Ho.
  unfold notifyFieldAuthSecurityChange in Ho. unfold bind at 1, gets at 1 in Ho.
  unfold fieldAuthVerdict. unfold getBoolean in Ho.
  destruct (default false (flagValues (world p) !! "showfieldauthnotification"));
    simpl in Ho; [|done].
  unfold await at 1 in Ho.
  rewrite (bind_returned _ _ _ _ _ (getApiResourceDir_eq p)) in Ho.
  destruct (appSyncApiNames (world p)) as [|name names].
  { subst o. apply clear_quietly. }
  unfold existsSync in Ho.
  destruct (resourceDirs (world p) !! name) as [d|] eqn:Hdir.
  2: { rewrite bool_decide_eq_false_2 in Ho by (by intros [? ?]).
       subst o. apply clear_quietly. }
  rewrite bool_decide_eq_true_2 in Ho by done.
  unfold fieldAuthOn in Ho. rewrite (bind_read name d _ p Hdir) in Ho.
  destruct (readSchema d) as [schema|error]; [|done].
  rewrite bind_settle in Ho.
  destruct (collectDirectivesByType schema) as [directiveMap|error]; [|done].
  rewrite bind_settle in Ho.
  destruct (parse schema) as [doc|error]; [|done].
  unfold bind at 1, gets at 1 in Ho.
  destruct (displayAuthNotification _ directiveMap _).
  2: { subst o. unfold bind at 1, ret at 1. apply clear_quietly. }
  subst o. unfold bind at 1.
  apply (asked_clear "showfieldauthnotification"). by apply prompt_then_call.
Qed.

Lemma notifySecurityEnhancement_run (p : Process) :
  follows (Some "securityEnhancementNotification")
    (securityVerdict readSchema collectDirectivesByTypeNames (world p)) p tt tt
    (notifySecurityEnhancement readSchema collectDirectivesByTypeNames p).
Proof.
  assert (quietly (Some "securityEnhancementNotification") p tt
            (await (setNotificationFlag "securityEnhancementNotification" false) p))
    as Hquiet.
  { destruct (setNotificationFlag_effect "securityEnhancementNotification" false p)
      as (p' & Hset & Hrest). by exists p'. }
  remember (notifySecurityEnhancement readSchema collectDirectivesByTypeNames p)
    as o eqn:Ho.
  unfold notifySecurityEnhancement in Ho. unfold bind at 1, gets at 1 in Ho.
  unfold securityVerdict. unfold getBoolean in Ho.
  destruct (default false (flagValues (world p) !! "securityEnhancementNotification"));
    [|done].
  unfold bind at 1, gets at 1 in Ho.
  destruct (appSyncApiNames (world p)) as [|name [|other names]];
    [by subst o| |by subst o].
  unfold bind at 1, gets at 1 in Ho. unfold existsSync in Ho.
  destruct (resourceDirs (world p) !! name) as [d|] eqn:Hdir.
  2: { rewrite bool_decide_eq_false_2 in Ho by (by intros [? ?]). by subst o. }
  rewrite bool_decide_eq_true_2 in Ho by done. simpl in Ho.
  rewrite (bind_read name d _ p Hdir) in Ho.
  destruct (readSchema d) as [schema|error]; [|done].
  rewrite bind_settle in Ho.
  destruct (collectDirectivesByTypeNames schema) as [types|error]; [|done].
  unfold bind at 1, gets at 1 in Ho.
  destruct (metaAuth (world p) && notifyAuthWithKey types); [|by subst o].
  subst o. unfold follows, asked. pose proof (promptAndDecline_effect p) as Hprompt.
  destruct (answers (world p) (prompts p)); [|by apply declined_bind].
  destruct Hprompt as (p1 & Hp1 & Hw1 & Hn1 & Hev1).
  rewrite (bind_returned _ _ _ _ _ Hp1).
  destruct (callModifyGraphQLSchema_effect name d p1)
    as (p2 & Hp2 & Hn2 & Hev2 & Hdirs2 & Hsame2 & Hflags2); [by rewrite Hw1|].
  unfold await at 1. rewrite (bind_returned _ _ _ _ _ Hp2).
  destruct (setNotificationFlag_effect "securityEnhancementNotification" false p2)
    as (p3 & Hset & Hn3 & Hev3 & Hdirs3 & Hsame3 & Hflags3).
  unfold await. rewrite Hset. exists p3. rewrite Hw1 in *.
  split; [done|]. split; [congruence|].
  split; [by rewrite Hev3, Hev2, Hev1, <- app_assoc|].
  split; [congruence|]. split.
  { destruct Hsame2 as (? & ? & ? & ?), Hsame3 as (? & ? & ? & ?).
    repeat split; congruence. }
  by eapply flagSet_after.
Qed.

(** *** The verdicts and the conditions *)

Lemma firstAppSync_head (w : World) :
  match appSyncApiNames w with
  | name :: _ => firstAppSync w name
  | [] => Forall (fun e => snd e ≠ "AppSync") (metaApi w)
  end.
Proof.
  unfold appSyncApiNames, firstAppSync.
  induction (metaApi w) as [|[name service] entries IH]; simpl; [constructor|].
  destruct (String.eqb service "AppSync") eqn:E; simpl.
  - apply String.eqb_eq in E as ->. exists [], entries. split; [done|constructor].
  - apply String.eqb_neq in E.
    destruct (List.map _ (List.filter _ entries)) as [|first names].
    + by apply Forall_cons.
    + destruct IH as (before & after & -> & Hbefore).
      exists ((name, service) :: before), after. split; [done|]. by apply Forall_cons.
Qed.

Lemma appSyncApiNames_none (entries : list (string * string)) :
  Forall (fun e => snd e ≠ "AppSync") entries →
  List.map (fun '(name, _) => name)
    (List.filter (fun '(_, service) => String.eqb service "AppSync") entries) = [].
Proof.
  induction 1 as [|[name service] entries Hservice _ IH]; simpl; [done|].
  simpl in Hservice. apply String.eqb_neq in Hservice. by rewrite Hservice.
Qed.

Lemma appSyncApiNames_split (w : World) before name after :
  metaApi w = (before ++ (name, "AppSync") :: after)%list →
  Forall (fun e => snd e ≠ "AppSync") before →
  appSyncApiNames w
  = name :: List.map (fun '(name, _) => name)
              (List.filter (fun '(_, service) => String.eqb service "AppSync") after).
Proof.
  intros Hmeta Hbefore. unfold appSyncApiNames. rewrite Hmeta.
  rewrite List.filter_app, List.map_app, (appSyncApiNames_none before Hbefore).
  done.
Qed.

Lemma firstAppSync_names (w : World) name :
  firstAppSync w name ↔ ∃ others, appSyncApiNames w = name :: others.
Proof.
  split.
  - intros (before & after & Hmeta & Hbefore).
    rewrite (appSyncApiNames_split w before name after Hmeta Hbefore). by eexists.
  - intros [others Hnames]. pose proof (firstAppSync_head w) as Hhead.
    by rewrite Hnames in Hhead.
Qed.

Lemma appSyncApiNames_some (entries : list (string * string)) :
  List.map (fun '(name, _) => name)
    (List.filter (fun '(_, service) => String.eqb service "AppSync") entries) = [] ↔
  Forall (fun e => snd e ≠ "AppSync") entries.
Proof.
  split; [|apply appSyncApiNames_none].
  induction entries as [|[name service] entries IH]; simpl; [constructor|].
  destruct (String.eqb service "AppSync") eqn:E; [discriminate|].
  apply String.eqb_neq in E. intros Hrest. apply Forall_cons. auto.
Qed.

Lemma onlyAppSync_names (w : World) name :
  onlyAppSync w name ↔ appSyncApiNames w = [name].
Proof.
  split.
  - intros (before & after & Hmeta & Hbefore & Hafter).
    rewrite (appSyncApiNames_split w before name after Hmeta Hbefore).
    by rewrite (appSyncApiNames_none after Hafter).
  - intros Hnames.
    assert (firstAppSync w name) as (before & after & Hmeta & Hbefore)
      by (apply firstAppSync_names; by eexists).
    exists before, after. split; [done|]. split; [done|].
    rewrite (appSyncApiNames_split w before name after Hmeta Hbefore) in Hnames.
    apply appSyncApiNames_some. congruence.
Qed.

Lemma resolversToSecure_length resolvers :
  (length (resolversToSecure resolvers) =? 0)%nat = false ↔ someUnguarded resolvers.
Proof.
  unfold someUnguarded, unguarded, resolversToSecure.
  destruct (filterTest listQueryPattern 0 (resolversToCheck resolvers)) as [|code codes] eqn:E.
  - apply filterTest_empty in E. rewrite Forall_forall in E. split; [discriminate|].
    intros (code & Hin & Hmatch%test_fresh_unguarded). rewrite (E code Hin) in Hmatch.
    discriminate.
  - split; [intros _|done].
    assert (¬ Forall (fun code => fst (test listQueryPattern 0 code) = false)
              (resolversToCheck resolvers)) as Hsome
      by (rewrite <- filterTest_empty, E; discriminate).
    apply not_Forall_Exists in Hsome; [|intros x; apply _].
    apply Exists_exists in Hsome as (found & Hin & Hmatch).
    exists found. split; [done|]. apply test_fresh_unguarded.
    simpl in Hmatch. by destruct (fst (test listQueryPattern 0 found)).
Qed.

Lemma includes_true names name : includes names name = true ↔ name ∈ names.
Proof.
  unfold includes. rewrite existsb_exists. split.
  - intros (x & Hin & ->%String.eqb_eq). by apply list_elem_of_In.
  - intros Hin. exists name. split; [by apply list_elem_of_In|apply String.eqb_refl].
Qed.

Lemma notifyAuthWithKey_true (types : gmap string (list string)) :
  notifyAuthWithKey types = true ↔
  ∃ type names, types !! type = Some names ∧ "auth" ∈ names ∧ "primaryKey" ∈ names.
Proof.
  unfold notifyAuthWithKey. rewrite existsb_exists. split.
  - intros ([type names] & Hin%list_elem_of_In%elem_of_map_to_list & Hboth).
    apply andb_true_iff in Hboth as [Hauth%includes_true Hkey%includes_true].
    by exists type, names.
  - intros (type & names & Hin & Hauth & Hkey). exists (type, names). split.
    + by apply list_elem_of_In, elem_of_map_to_list.
    + apply andb_true_iff. split; by apply includes_true.
Qed.

Lemma flagOn_default flagName (w : World) :
  default false (flagValues w !! flagName) = true ↔ flagOn flagName w.
Proof.
  unfold flagOn. destruct (flagValues w !! flagName) as [[]|]; simpl; split; congruence.
Qed.

Lemma listQueryVerdict_ask (w : World) name d :
  listQueryVerdict readSchema parse w = Ask name d ↔
  listQueryTrigger readSchema parse w name d.
Proof.
  unfold listQueryVerdict, listQueryTrigger. rewrite firstAppSync_names. split.
  - destruct (appSyncApiNames w) as [|first names]; [done|].
    destruct (resourceDirs w !! first) as [d'|] eqn:Hdir; [|done].
    destruct (readSchema d') as [schema|] eqn:Hschema; [|done].
    destruct (loadResolvers d') as [resolvers|] eqn:Hload; [|done].
    destruct (length (resolversToSecure resolvers) =? 0)%nat eqn:Hsome; [done|].
    destruct (parse schema) as [doc|] eqn:Hdoc; [|done].
    destruct (hasV2AuthDirectives _ doc) eqn:Hv2; [|done].
    intros [= <- <-]. split; [by eexists|]. split; [done|].
    exists schema, resolvers, doc. split; [done|]. split; [done|].
    split; [by apply resolversToSecure_length|]. done.
  - intros ([others ->] & -> & schema & resolvers & doc & -> & -> & Hsome & -> & ->).
    apply resolversToSecure_length in Hsome. by rewrite Hsome.
Qed.

Lemma listQueryVerdict_fail (w : World) error :
  listQueryVerdict readSchema parse w = Fail error ↔
  ∃ name d, listQueryRejects readSchema parse w name d error.
Proof.
  unfold listQueryVerdict, listQueryRejects. setoid_rewrite firstAppSync_names. split.
  - destruct (appSyncApiNames w) as [|first names]; [done|].
    destruct (resourceDirs w !! first) as [d'|] eqn:Hdir; [|done].
    intros Hfail. exists first, d'. split; [by eexists|]. split; [done|].
    destruct (readSchema d') as [schema|] eqn:Hschema; [|left; congruence].
    right. exists schema. split; [done|].
    destruct (loadResolvers d') as [resolvers|] eqn:Hload; [|left; congruence].
    right. exists resolvers. split; [done|].
    destruct (length (resolversToSecure resolvers) =? 0)%nat eqn:Hsome; [done|].
    split; [by apply resolversToSecure_length|].
    destruct (parse schema) as [doc|] eqn:Hdoc; [|congruence].
    by destruct (hasV2AuthDirectives _ doc).
  - intros (name & d & [others ->] & -> & Hreject).
    destruct Hreject as [->|(schema & -> & [->|(resolvers & -> & Hsome & ->)])];
      [done|done|].
    apply resolversToSecure_length in Hsome. by rewrite Hsome.
Qed.

Lemma listQueryVerdict_not_quiet (w : World) :
  listQueryVerdict readSchema parse w ≠ Quiet.
Proof.
  unfold listQueryVerdict.
  repeat match goal with
         | |- context [match ?x with _ => _ end] => destruct x
         end; done.
Qed.

Lemma fieldAuthVerdict_ask (w : World) name d :
  fieldAuthVerdict readSchema parse collectDirectivesByType w = Ask name d ↔
  fieldAuthTrigger readSchema parse collectDirectivesByType w name d.
Proof.
  unfold fieldAuthVerdict, fieldAuthTrigger.
  rewrite firstAppSync_names, <- flagOn_default. split.
  - destruct (default false _); [|done].
    destruct (appSyncApiNames w) as [|first names]; [done|].
    destruct (resourceDirs w !! first) as [d'|] eqn:Hdir; [|done].
    destruct (readSchema d') as [schema|] eqn:Hschema; [|done].
    destruct (collectDirectivesByType schema) as [directiveMap|] eqn:Hmap; [|done].
    destruct (parse schema) as [doc|] eqn:Hdoc; [|done].
    destruct (displayAuthNotification _ directiveMap _) eqn:Hdisplay; [|done].
    intros [= <- <-]. split; [done|]. split; [by eexists|]. split; [done|].
    by exists schema, directiveMap, doc.
  - intros (-> & [others ->] & -> & schema & directiveMap & doc & -> & -> & -> & ->).
    done.
Qed.

Lemma fieldAuthVerdict_fail (w : World) error :
  fieldAuthVerdict readSchema parse collectDirectivesByType w = Fail error ↔
  ∃ name d, fieldAuthRejects readSchema parse collectDirectivesByType w name d error.
Proof.
  unfold fieldAuthVerdict, fieldAuthRejects.
  setoid_rewrite firstAppSync_names. setoid_rewrite <- flagOn_default. split.
  - destruct (default false _); [|done].
    destruct (appSyncApiNames w) as [|first names]; [done|].
    destruct (resourceDirs w !! first) as [d'|] eqn:Hdir; [|done].
    intros Hfail. exists first, d'. split; [done|]. split; [by eexists|]. split; [done|].
    destruct (readSchema d') as [schema|] eqn:Hschema; [|left; congruence].
    right. exists schema. split; [done|].
    destruct (collectDirectivesByType schema) as [directiveMap|] eqn:Hmap;
      [|left; congruence].
    right. exists directiveMap. split; [done|].
    destruct (parse schema) as [doc|] eqn:Hdoc; [|congruence].
    by destruct (displayAuthNotification _ directiveMap _).
  - intros (name & d & -> & [others ->] & -> & Hreject).
    by destruct Hreject as [->|(schema & -> & [->|(directiveMap & -> & ->)])].
Qed.


Lemma securityVerdict_ask (w : World) name d :
  securityVerdict readSchema collectDirectivesByTypeNames w = Ask name d ↔
  securityTrigger readSchema collectDirectivesByTypeNames w name d.
Proof.
  unfold securityVerdict, securityTrigger.
  rewrite onlyAppSync_names, <- flagOn_default. split.
  - destruct (default false _); [|done].
    destruct (appSyncApiNames w) as [|first [|other names]]; [done| |done].
    destruct (resourceDirs w !! first) as [d'|] eqn:Hdir; [|done].
    destruct (readSchema d') as [schema|] eqn:Hschema; [|done].
    destruct (collectDirectivesByTypeNames schema) as [types|] eqn:Htypes; [|done].
    destruct (metaAuth w && notifyAuthWithKey types) eqn:Hboth; [|done].
    apply andb_true_iff in Hboth as [Hauth (type & names & Hkey)%notifyAuthWithKey_true].
    intros [= <- <-]. split; [done|]. split; [done|]. split; [done|]. split; [done|].
    by exists schema, types, type, names.
  - intros (-> & -> & -> & Hauth & schema & types & type & names & -> & -> & Hkey).
    rewrite Hauth. simpl.
    assert (notifyAuthWithKey types = true) as ->; [|done].
    apply notifyAuthWithKey_true. by exists type, names.
Qed.

Lemma securityVerdict_fail (w : World) error :
  securityVerdict readSchema collectDirectivesByTypeNames w = Fail error ↔
  ∃ name d, securityRejects readSchema collectDirectivesByTypeNames w name d error.
Proof.
  unfold securityVerdict, securityRejects.
  setoid_rewrite onlyAppSync_names. setoid_rewrite <- flagOn_default. split.
  - destruct (default false _); [|done].
    destruct (appSyncApiNames w) as [|first [|other names]]; [done| |done].
    destruct (resourceDirs w !! first) as [d'|] eqn:Hdir; [|done].
    intros Hfail. exists first, d'. split; [done|]. split; [done|]. split; [done|].
    destruct (readSchema d') as [schema|] eqn:Hschema; [|left; congruence].
    right. exists schema. split; [done|].
    destruct (collectDirectivesByTypeNames schema) as [types|] eqn:Htypes; [|congruence].
    by destruct (metaAuth w && notifyAuthWithKey types).
  - intros (name & d & -> & -> & -> & Hreject).
    by destruct Hreject as [->|(schema & -> & ->)].
Qed.

Lemma securityVerdict_skip (w : World) :
  securityVerdict readSchema collectDirectivesByTypeNames w = Skip ↔
  default false (flagValues w !! "securityEnhancementNotification") = false.
Proof.
  unfold securityVerdict. destruct (default false _); [|done].
  split; [|done].
  repeat match goal with
         | |- context [match ?x with _ => _ end] => destruct x
         end; done.
Qed.

(** *** What follows from a verdict *)

Ltac break_hyps :=
  repeat match goal with
         | H : ∃ _, _ |- _ => destruct H
         | H : _ ∧ _ |- _ => destruct H
         | H : _ ∨ _ |- _ => destruct H
         end.

Ltac decide_outcome :=
  repeat split; intros; break_hyps; try discriminate; try congruence; eauto 8.

Lemma follows_trace flag v (p : Process) {A} (no yes : A) (o : Outcome A) :
  follows flag v p no yes o → policyTrace p o.
Proof.
  destruct v as [| |name d|error]; simpl.
  - intros ->. by left.
  - intros (p' & -> & _ & Hev & _). by left.
  - unfold asked. destruct (answers (world p) (prompts p)).
    + intros (p' & -> & _ & Hev & _). right. by exists name.
    + by intros (p' & -> & _ & Hev & _).
  - by intros ->.
Qed.


Lemma follows_schemaEffect flag v (w : World) {A} (no yes : A) (o : Outcome A) :
  (∀ name d, v = Ask name d → firstAppSync w name ∧ resourceDirs w !! name = Some d) →
  follows flag v (start w) no yes o → schemaEffect w o.
Proof.
  intros Hask. destruct v as [| |name d|error]; simpl.
  - by intros ->.
  - intros (p' & -> & Hn & _ & Hdirs & _). unfold schemaEffect. simpl in *.
    by rewrite Hn.
  - destruct (Hask name d eq_refl) as [Hfirst Hdir].
    unfold asked. simpl. destruct (answers w 0).
    + intros (p' & -> & Hn & _ & Hdirs & _). unfold schemaEffect. simpl in *.
      rewrite Hn. simpl. exists name. split; [done|]. by exists d.
    + intros (p' & -> & _ & _ & Hw). unfold schemaEffect. simpl in *. left.
      by rewrite Hw.
  - by intros ->.
Qed.

(** The prompt, the return value, the exit and the rejection of a run,
    by the verdict. *)
Lemma follows_prompt flag v (w : World) {A} (no yes : A) (o : Outcome A) :
  follows flag v (start w) no yes o →
  ((∃ name d, v = Ask name d) ↔ prompts (outcomeProcess o) = 1%nat)
  ∧ ((∃ name d, v = Ask name d) ∧ answers w 0%nat = false ↔ exitCode o = Some 0%Z)
  ∧ (∀ error, v = Fail error ↔ o = Threw error (start w))
  ∧ ((∃ name d, v = Ask name d) ∧ answers w 0%nat = true → returnValue o = Some yes)
  ∧ ((∃ name d, v = Ask name d) ∨ (∃ error, thrownError o = Some error)
     ∨ returnValue o = Some no).
Proof.
  destruct v as [| |name d|error]; simpl.
  - intros ->. simpl. decide_outcome.
  - intros (p' & -> & Hn & _). simpl in *. rewrite Hn. decide_outcome.
  - unfold asked. simpl. destruct (answers w 0) eqn:Hanswer.
    + intros (p' & -> & Hn & _). simpl in *. rewrite Hn. decide_outcome.
    + intros (p' & -> & Hn & _). simpl in *. rewrite Hn. decide_outcome.
  - intros ->. simpl. decide_outcome.
Qed.

Lemma follows_true flag v (w : World) (o : Outcome bool) :
  follows flag v (start w) false true o →
  ((∃ name d, v = Ask name d) ∧ answers w 0%nat = true ↔ returnValue o = Some true).
Proof.
  destruct v as [| |name d|error]; simpl.
  - intros ->. decide_outcome.
  - intros (p' & -> & _). decide_outcome.
  - unfold asked. simpl. destruct (answers w 0) eqn:Hanswer.
    + intros (p' & -> & _). decide_outcome.
    + intros (p' & -> & _). decide_outcome.
  - intros ->. decide_outcome.
Qed.

(** *** The claims on the policies *)

(** Every run of a policy goes one of the ways of [policyTrace]: no
    event; a prompt answered Yes, then the call of
    [modifyGraphQLSchema]; a prompt answered No, then exactly one
    success event and the exit with code 0, and nothing after it; and a
    run that rejects has added no event. *)
Theorem policy_runs (w : World) :
  policyTrace (start w)
    (run (notifyFieldAuthSecurityChange readSchema parse collectDirectivesByType) w)
  ∧ policyTrace (start w) (run (notifyListQuerySecurityChange readSchema parse) w)
  ∧ policyTrace (start w)
      (run (notifySecurityEnhancement readSchema collectDirectivesByTypeNames) w).
Proof.
  split; [|split].
  - eapply follows_trace, notifyFieldAuthSecurityChange_run.
  - eapply follows_trace, notifyListQuerySecurityChange_run.
  - eapply follows_trace, notifySecurityEnhancement_run.
Qed.

(** C1.  When the trigger condition of a policy holds, the run asks the
    user.  With the answer No it emits one success event and the
    process exits with code 0: [modifyGraphQLSchema] is not called and
    nothing of the project has changed.  With the answer Yes
    [modifyGraphQLSchema] is called on the directory of the API, and
    the result is [true].  And whenever a run calls
    [modifyGraphQLSchema], the user has answered Yes and the run
    returns [true]. *)
Theorem decline_exits_before_modifyGraphQLSchema (w : World) (name : string)
    (d : ApiResourceDir) :
  (fieldAuthTrigger readSchema parse collectDirectivesByType w name d →
   if answers w 0%nat
   then agreed (Some "showfieldauthnotification") name d (start w) true
          (run (notifyFieldAuthSecurityChange readSchema parse collectDirectivesByType) w)
   else declined (start w)
          (run (notifyFieldAuthSecurityChange readSchema parse collectDirectivesByType) w))
  ∧ (listQueryTrigger readSchema parse w name d →
     if answers w 0%nat
     then agreed None name d (start w) true
            (run (notifyListQuerySecurityChange readSchema parse) w)
     else declined (start w) (run (notifyListQuerySecurityChange readSchema parse) w))
  ∧ (securityTrigger readSchema collectDirectivesByTypeNames w name d →
     if answers w 0%nat
     then agreed (Some "securityEnhancementNotification") name d (start w) tt
            (run (notifySecurityEnhancement readSchema collectDirectivesByTypeNames) w)
     else declined (start w)
            (run (notifySecurityEnhancement readSchema collectDirectivesByTypeNames) w))
  ∧ (∀ dir,
       ModifyGraphQLSchema dir
       ∈ events (outcomeProcess
                   (run (notifyFieldAuthSecurityChange readSchema parse
                           collectDirectivesByType) w)) →
       answers w 0%nat = true ∧
       returnValue (run (notifyFieldAuthSecurityChange readSchema parse
                           collectDirectivesByType) w) = Some true)
  ∧ (∀ dir,
       ModifyGraphQLSchema dir
       ∈ events (outcomeProcess (run (notifyListQuerySecurityChange readSchema parse) w)) →
       answers w 0%nat = true ∧
       returnValue (run (notifyListQuerySecurityChange readSchema parse) w) = Some true)
  ∧ (∀ dir,
       ModifyGraphQLSchema dir
       ∈ events (outcomeProcess
                   (run (notifySecurityEnhancement readSchema
                           collectDirectivesByTypeNames) w)) →
       answers w 0%nat = true ∧
       returnValue (run (notifySecurityEnhancement readSchema
                           collectDirectivesByTypeNames) w) = Some tt).
Proof.
  assert (∀ flag v A (no yes : A) (o : Outcome A) dir,
            follows flag v (start w) no yes o →
            ModifyGraphQLSchema dir ∈ events (outcomeProcess o) →
            answers w 0%nat = true ∧ returnValue o = Some yes) as Hcalled.
  { intros flag v A no yes o dir Hrun.
    destruct v as [| |name' d'|error]; simpl in Hrun.
    - rewrite Hrun. simpl. by intros ?%elem_of_nil.
    - destruct Hrun as (p' & -> & _ & Hev & _). simpl in *. rewrite Hev.
      by intros ?%elem_of_nil.
    - unfold asked in Hrun. simpl in Hrun. destruct (answers w 0).
      + destruct Hrun as (p' & -> & _). done.
      + destruct Hrun as (p' & -> & _ & Hev & _). simpl in *. rewrite Hev.
        intros Hin. repeat (apply elem_of_cons in Hin as [Hin|Hin]; [discriminate|]).
        by apply elem_of_nil in Hin.
    - rewrite Hrun. simpl. by intros ?%elem_of_nil. }
  pose proof (notifyFieldAuthSecurityChange_run (start w)) as Hfield.
  pose proof (notifyListQuerySecurityChange_run (start w)) as Hlist.
  pose proof (notifySecurityEnhancement_run (start w)) as Hsecurity.
  split_and!.
  - intros Htrigger%fieldAuthVerdict_ask. simpl in Hfield. by rewrite Htrigger in Hfield.
  - intros Htrigger%listQueryVerdict_ask. simpl in Hlist. by rewrite Htrigger in Hlist.
  - intros Htrigger%securityVerdict_ask. simpl in Hsecurity.
    by rewrite Htrigger in Hsecurity.
  - intros dir. by eapply Hcalled.
  - intros dir. by eapply Hcalled.
  - intros dir. by eapply Hcalled.
Qed.



(** C4 (as amended).  On every project state on which
    [notifySecurityEnhancement] runs with its flag
    [securityEnhancementNotification] on, every run that returns ends
    with the flag cleared, in [cli.json] (which is created when it is
    missing) and in the process: whether there is not exactly one
    AppSync API, the resource directory is missing, the trigger
    condition fails, or the user is prompted and agrees.  A run in
    which the user declines the prompt ends by the exit with code 0,
    and a run in which the schema cannot be read or is not GraphQL
    rejects: both with nothing changed, the flag still on. *)
Theorem notifySecurityEnhancement_clears_flag (w : World) :
  flagOn "securityEnhancementNotification" w →
  match run (notifySecurityEnhancement readSchema collectDirectivesByTypeNames) w with
  | Returned _ p =>
      getBoolean "securityEnhancementNotification" p = false ∧
      ∃ config, cliJSON (world p) = Some config ∧
                config !! "securityEnhancementNotification" = Some false
  | Exited code p =>
      code = 0%Z ∧ world p = w ∧ answers w 0%nat = false ∧
      ∃ name d, securityTrigger readSchema collectDirectivesByTypeNames w name d
  | Threw error p =>
      world p = w ∧
      ∃ name d, securityRejects readSchema collectDirectivesByTypeNames w name d error
  end.
Proof.
  intros Hon%flagOn_default.
  pose proof (notifySecurityEnhancement_run (start w)) as Hrun.
  pose proof (securityVerdict_skip w) as Hskip.
  pose proof (securityVerdict_ask w) as Hask.
  pose proof (securityVerdict_fail w) as Hfail.
  unfold run, await. simpl in Hrun.
  destruct (securityVerdict readSchema collectDirectivesByTypeNames w)
    as [| |name d|error]; simpl in Hrun.
  - rewrite (proj1 Hskip eq_refl) in Hon. discriminate.
  - destruct Hrun as (p' & -> & _ & _ & _ & _ & Hflags).
    by apply flagEffect_cleared in Hflags.
  - unfold asked in Hrun. simpl in Hrun. destruct (answers w 0) eqn:Hanswer.
    + destruct Hrun as (p' & -> & _ & _ & _ & _ & Hflags).
      by apply flagEffect_cleared in Hflags.
    + destruct Hrun as (p' & -> & _ & _ & Hw). split; [done|]. split; [done|].
      split; [done|]. exists name, d. by apply Hask.
  - rewrite Hrun. split; [done|]. by apply Hfail.
Qed.

(** C10.  With one or more AppSync APIs in the metadata, the first of
    them in enumeration order having its resource directory on disk,
    [notifyListQuerySecurityChange] and [notifyFieldAuthSecurityChange]
    go by that directory, however many other APIs there are: they ask
    exactly when their condition holds of it, and then, the user
    agreeing, call [modifyGraphQLSchema] on it and return [true].  With
    another AppSync API after the first, [notifySecurityEnhancement]
    (its flag being on) asks nothing, changes no directory, clears its
    flag and returns. *)
Theorem first_AppSync_api_is_used (w : World) (before after : list (string * string))
    (first : string) (d : ApiResourceDir) :
  metaApi w = (before ++ (first, "AppSync") :: after)%list →
  Forall (fun e => snd e ≠ "AppSync") before →
  resourceDirs w !! first = Some d →
  ((listQueryTrigger readSchema parse w first d ↔
    prompts (outcomeProcess (run (notifyListQuerySecurityChange readSchema parse) w))
    = 1%nat)
   ∧ (listQueryTrigger readSchema parse w first d →
      asked None first d (start w) true
        (run (notifyListQuerySecurityChange readSchema parse) w)))
  ∧ ((fieldAuthTrigger readSchema parse collectDirectivesByType w first d ↔
      prompts (outcomeProcess
                 (run (notifyFieldAuthSecurityChange readSchema parse
                         collectDirectivesByType) w))
      = 1%nat)
     ∧ (fieldAuthTrigger readSchema parse collectDirectivesByType w first d →
        asked (Some "showfieldauthnotification") first d (start w) true
          (run (notifyFieldAuthSecurityChange readSchema parse
                  collectDirectivesByType) w)))
  ∧ ((∃ e, e ∈ after ∧ snd e = "AppSync") →
     flagOn "securityEnhancementNotification" w →
     quietly (Some "securityEnhancementNotification") (start w) tt
       (run (notifySecurityEnhancement readSchema collectDirectivesByTypeNames) w)).
Proof.
  intros Hmeta Hbefore Hdir.
  pose proof (appSyncApiNames_split w before first after Hmeta Hbefore) as Hnames.
  assert (∀ flag v A (no yes : A) (o : Outcome A),
            follows flag v (start w) no yes o →
            (∀ name d', v = Ask name d' → name = first ∧ d' = d) →
            (v = Ask first d ↔ prompts (outcomeProcess o) = 1%nat)
            ∧ (v = Ask first d → asked flag first d (start w) yes o)) as Hgoes.
  { intros flag v A no yes o Hrun Hfirst.
    destruct (follows_prompt _ _ _ _ _ _ Hrun) as (Hprompt & _).
    split.
    - rewrite <- Hprompt. split; [by eexists _, _|].
      intros (name & d' & Hv). by destruct (Hfirst _ _ Hv) as [-> ->].
    - intros Hv. by rewrite Hv in Hrun. }
  split; [|split].
  - pose proof (notifyListQuerySecurityChange_run (start w)) as Hrun.
    rewrite <- listQueryVerdict_ask. eapply Hgoes; [exact Hrun|].
    intros name d' (Hfirst & Hdir' & _)%listQueryVerdict_ask.
    apply firstAppSync_names in Hfirst as [others Hfirst]. simpl in *.
    assert (name = first) as -> by congruence. split; [done|congruence].
  - pose proof (notifyFieldAuthSecurityChange_run (start w)) as Hrun.
    rewrite <- fieldAuthVerdict_ask. eapply Hgoes; [exact Hrun|].
    intros name d' (_ & Hfirst & Hdir' & _)%fieldAuthVerdict_ask.
    apply firstAppSync_names in Hfirst as [others Hfirst]. simpl in *.
    assert (name = first) as -> by congruence. split; [done|congruence].
  - intros (e & Hin & Hservice) Hon%flagOn_default.
    pose proof (notifySecurityEnhancement_run (start w)) as Hrun.
    unfold securityVerdict in Hrun. simpl in Hrun. rewrite Hon, Hnames in Hrun.
    destruct (List.map _ (List.filter _ after)) as [|other others] eqn:Hothers;
      [|done].
    apply appSyncApiNames_some in Hothers. rewrite Forall_forall in Hothers.
    by destruct (Hothers e Hin).
Qed.

(** *** Further properties of the policies *)

(** [getApiResourceDir] gives the directory of the first AppSync
    resource of the metadata when that directory exists, and nothing in
    every other case: no AppSync resource, or the first one without a
    directory, even if a later AppSync resource has one. *)
Theorem getApiResourceDir_first_existing (w : World) :
  ∃ result,
    getApiResourceDir (start w) = Returned result (start w) ∧
    ∀ name, result = Some name ↔
            firstAppSync w name ∧ is_Some (resourceDirs w !! name).
Proof.
  eexists. split; [by apply getApiResourceDir_eq|].
  intros name. pose proof (firstAppSync_head w) as Hhead. simpl.
  destruct (appSyncApiNames w) as [|first names] eqn:Hnames.
  - split; [discriminate|]. intros [[others Hfirst]%firstAppSync_names _]. congruence.
  - unfold existsSync. simpl. case_bool_decide as Hdir.
    + split.
      * by intros [= <-].
      * intros [[others Hfirst]%firstAppSync_names _]. congruence.
    + split; [discriminate|].
      intros [[others Hfirst]%firstAppSync_names Hsome]. congruence.
Qed.

(** [notifyListQuerySecurityChange] asks the user exactly when the
    first AppSync API of the metadata has its directory on disk, the
    schema of that directory can be read, the resolvers can be loaded,
    a list request template holds an unguarded filter assignment, and
    the schema parses to a document with a version-2 [@auth]
    directive.  It then returns [true] when the answer is Yes and the
    process exits with code 0 when the answer is No.  It rejects,
    nothing changed, exactly with the error of the schema reader, of
    the loader of the resolvers, or, an unguarded template being
    there, of the parser.  In every other case the caller gets [false]
    and nothing has changed. *)
Theorem notifyListQuerySecurityChange_asks_iff (w : World) :
  ((∃ name d, listQueryTrigger readSchema parse w name d) ↔
   prompts (outcomeProcess (run (notifyListQuerySecurityChange readSchema parse) w)) = 1%nat)
  ∧ ((∃ name d, listQueryTrigger readSchema parse w name d) ∧ answers w 0%nat = true ↔
     returnValue (run (notifyListQuerySecurityChange readSchema parse) w) = Some true)
  ∧ ((∃ name d, listQueryTrigger readSchema parse w name d) ∧ answers w 0%nat = false ↔
     exitCode (run (notifyListQuerySecurityChange readSchema parse) w) = Some 0%Z)
  ∧ (∀ error,
       (∃ name d, listQueryRejects readSchema parse w name d error) ↔
       run (notifyListQuerySecurityChange readSchema parse) w = Threw error (start w))
  ∧ ((∃ name d, listQueryTrigger readSchema parse w name d)
     ∨ (∃ error,
          thrownError (run (notifyListQuerySecurityChange readSchema parse) w)
          = Some error)
     ∨ run (notifyListQuerySecurityChange readSchema parse) w
       = Returned false (start w)).
Proof.
  pose proof (notifyListQuerySecurityChange_run (start w)) as Hrun. simpl in Hrun.
  destruct (follows_prompt _ _ _ _ _ _ Hrun) as (Hprompt & Hexit & Hthrew & _ & Hrest).
  pose proof (follows_true _ _ _ _ Hrun) as Htrue.
  pose proof (listQueryVerdict_not_quiet w) as Hquiet.
  setoid_rewrite <- listQueryVerdict_ask. setoid_rewrite <- listQueryVerdict_fail.
  split; [done|]. split; [done|]. split; [done|]. split; [done|].
  destruct (listQueryVerdict readSchema parse w) as [| |name d|error]; simpl in Hrun.
  - by right; right.
  - done.
  - left. by exists name, d.
  - right; left. exists error. unfold run, await. by rewrite Hrun.
Qed.

(** [notifyListQuerySecurityChange] never changes a feature flag, nor
    [cli.json], nor the metadata, whatever the project and the answer:
    nothing keeps it from asking again at the next call. *)
Theorem notifyListQuerySecurityChange_keeps_flags (w : World) :
  flagValues (world (outcomeProcess (run (notifyListQuerySecurityChange readSchema parse) w)))
  = flagValues w
  ∧ cliJSON (world (outcomeProcess (run (notifyListQuerySecurityChange readSchema parse) w)))
    = cliJSON w
  ∧ sameProject w
      (world (outcomeProcess (run (notifyListQuerySecurityChange readSchema parse) w))).
Proof.
  pose proof (notifyListQuerySecurityChange_run (start w)) as Hrun. simpl in Hrun.
  unfold run, await.
  destruct (listQueryVerdict readSchema parse w) as [| |name d|error]; simpl in Hrun.
  - by rewrite Hrun.
  - by destruct Hrun as (p' & -> & _ & _ & _ & Hsame & Hcfg & Hflags).
  - unfold asked in Hrun. simpl in Hrun. destruct (answers w 0).
    + by destruct Hrun as (p' & -> & _ & _ & _ & Hsame & Hcfg & Hflags).
    + destruct Hrun as (p' & -> & _ & _ & Hw). simpl in *. by rewrite Hw.
  - by rewrite Hrun.
Qed.

(** [notifyFieldAuthSecurityChange] asks the user exactly when its flag
    is on, the first AppSync API of the metadata has its directory on
    disk, the schema of that directory can be read and is GraphQL, and
    [displayAuthNotification] holds of it.  It then returns [true]
    when the answer is Yes and the process exits with code 0 when the
    answer is No.  It rejects, nothing changed, exactly with the error
    of the schema reader, of [collectDirectivesByType] or of the
    parser, its flag being on and the directory there.  In every other
    case it returns [false] without a prompt. *)
Theorem notifyFieldAuthSecurityChange_asks_iff (w : World) :
  ((∃ name d, fieldAuthTrigger readSchema parse collectDirectivesByType w name d) ↔
   prompts (outcomeProcess
              (run (notifyFieldAuthSecurityChange readSchema parse collectDirectivesByType) w))
   = 1%nat)
  ∧ ((∃ name d, fieldAuthTrigger readSchema parse collectDirectivesByType w name d)
     ∧ answers w 0%nat = true ↔
     returnValue
       (run (notifyFieldAuthSecurityChange readSchema parse collectDirectivesByType) w)
     = Some true)
  ∧ ((∃ name d, fieldAuthTrigger readSchema parse collectDirectivesByType w name d)
     ∧ answers w 0%nat = false ↔
     exitCode
       (run (notifyFieldAuthSecurityChange readSchema parse collectDirectivesByType) w)
     = Some 0%Z)
  ∧ (∀ error,
       (∃ name d,
          fieldAuthRejects readSchema parse collectDirectivesByType w name d error) ↔
       run (notifyFieldAuthSecurityChange readSchema parse collectDirectivesByType) w
       = Threw error (start w))
  ∧ ((∃ name d, fieldAuthTrigger readSchema parse collectDirectivesByType w name d)
     ∨ (∃ error,
          thrownError
            (run (notifyFieldAuthSecurityChange readSchema parse
                    collectDirectivesByType) w)
          = Some error)
     ∨ returnValue
         (run (notifyFieldAuthSecurityChange readSchema parse collectDirectivesByType) w)
       = Some false).
Proof.
  pose proof (notifyFieldAuthSecurityChange_run (start w)) as Hrun. simpl in Hrun.
  destruct (follows_prompt _ _ _ _ _ _ Hrun) as (Hprompt & Hexit & Hthrew & _ & Hrest).
  pose proof (follows_true _ _ _ _ Hrun) as Htrue.
  setoid_rewrite <- fieldAuthVerdict_ask. setoid_rewrite <- fieldAuthVerdict_fail.
  done.
Qed.

(** [notifySecurityEnhancement] asks the user exactly when its flag is
    on, the metadata has exactly one AppSync API, the directory of that
    API is on disk, the schema of that directory can be read and is
    GraphQL, the project has auth resources, and some type of the schema
    carries both [@auth] and [@primaryKey].  The call then returns
    when the answer is Yes and the process exits with code 0 when the
    answer is No.  It rejects, nothing changed, exactly with the error
    of the schema reader or of [collectDirectivesByTypeNames], its flag
    being on, the one API there with its directory.  Every other run
    returns without a prompt. *)
Theorem notifySecurityEnhancement_asks_iff (w : World) :
  ((∃ name d, securityTrigger readSchema collectDirectivesByTypeNames w name d) ↔
   prompts (outcomeProcess
              (run (notifySecurityEnhancement readSchema collectDirectivesByTypeNames) w))
   = 1%nat)
  ∧ ((∃ name d, securityTrigger readSchema collectDirectivesByTypeNames w name d)
     ∧ answers w 0%nat = false ↔
     exitCode (run (notifySecurityEnhancement readSchema collectDirectivesByTypeNames) w)
     = Some 0%Z)
  ∧ (∀ error,
       (∃ name d,
          securityRejects readSchema collectDirectivesByTypeNames w name d error) ↔
       run (notifySecurityEnhancement readSchema collectDirectivesByTypeNames) w
       = Threw error (start w))
  ∧ ((∃ name d, securityTrigger readSchema collectDirectivesByTypeNames w name d)
     ∨ (∃ error,
          thrownError
            (run (notifySecurityEnhancement readSchema collectDirectivesByTypeNames) w)
          = Some error)
     ∨ returnValue
         (run (notifySecurityEnhancement readSchema collectDirectivesByTypeNames) w)
       = Some tt).
Proof.
  pose proof (notifySecurityEnhancement_run (start w)) as Hrun. simpl in Hrun.
  destruct (follows_prompt _ _ _ _ _ _ Hrun) as (Hprompt & Hexit & Hthrew & _ & Hrest).
  setoid_rewrite <- securityVerdict_ask. setoid_rewrite <- securityVerdict_fail.
  done.
Qed.

(** Of the API resource directories a policy changes at most the one of
    the first AppSync API, by one call of [modifyGraphQLSchema] on it.
    A call that returns has done so exactly when it asked the user (who
    then agreed); a call that does not ask, or that throws, leaves every
    directory as it was. *)
Theorem policies_touch_first_api_only (w : World) :
  schemaEffect w
    (run (notifyFieldAuthSecurityChange readSchema parse collectDirectivesByType) w)
  ∧ schemaEffect w (run (notifyListQuerySecurityChange readSchema parse) w)
  ∧ schemaEffect w
      (run (notifySecurityEnhancement readSchema collectDirectivesByTypeNames) w).
Proof.
  split; [|split].
  - eapply follows_schemaEffect; [|apply notifyFieldAuthSecurityChange_run].
    simpl. by intros name d (_ & Hfirst & Hdir & _)%fieldAuthVerdict_ask.
  - eapply follows_schemaEffect; [|apply notifyListQuerySecurityChange_run].
    simpl. by intros name d (Hfirst & Hdir & _)%listQueryVerdict_ask.
  - eapply follows_schemaEffect; [|apply notifySecurityEnhancement_run].
    simpl. intros name d (_ & Honly & Hdir & _)%securityVerdict_ask.
    split; [|done]. destruct Honly as (before & after & Hmeta & Hbefore & _).
    by exists before, after.
Qed.

(** [setNotificationFlag] called from a fresh process returns, with no
    event and no prompt, and changes neither the metadata nor a
    directory.  Afterwards [cli.json] exists, created if it was
    missing, and holds the value for the flag named; every other flag of
    a file that was there is as it was; and the process reads the new
    value of the flag. *)
Theorem setNotificationFlag_sets_that_flag_only (flagName : string) (value : bool)
    (w : World) :
  ∃ p' config',
    run (setNotificationFlag flagName value) w = Returned tt p' ∧
    events p' = [] ∧ prompts p' = 0%nat ∧
    sameProject w (world p') ∧ resourceDirs (world p') = resourceDirs w ∧
    cliJSON (world p') = Some config' ∧
    config' !! flagName = Some value ∧
    (∀ config other,
       cliJSON w = Some config → other ≠ flagName → config' !! other = config !! other) ∧
    getBoolean flagName p' = value.
Proof.
  destruct (setNotificationFlag_effect flagName value (start w))
    as (p' & Hset & Hn & Hev & Hdirs & Hsame & Hflags & config' & Hcfg & Hvalue & Hothers).
  exists p', config'. simpl in *.
  split; [done|]. split; [done|]. split; [done|]. split; [done|]. split; [done|].
  split; [done|]. split; [done|]. split.
  - intros config other Hold Hother. by apply Hothers.
  - unfold getBoolean. by rewrite Hflags.
Qed.

End PolicyFacts.
(** * The policies run on the sample project *)

Section SampleRuns.
Import Ast Directives Resolvers Fs Policy Measures Sample.

(** The predicates on the sample schema: [Todo] has a non-null field
    with [auth] and a type-level [auth], and its [model] directive sets
    [subscriptions] to null. *)
Example predicates_on_sample :
  hasFieldAuthDirectives todoDocument = {[ "Todo" ]}
  ∧ hasV2AuthDirectives 2 todoDocument = true
  ∧ hasV2AuthDirectives 1 todoDocument = false
  ∧ collectDirectivesByType todoSchema
    = Resolved {[ "Todo" := [primaryKeyDirective; authDirective;
                             modelDirective; authDirective] ]}
  ∧ displayAuthNotification 2
      {[ "Todo" := [primaryKeyDirective; authDirective; modelDirective; authDirective] ]}
      (hasFieldAuthDirectives todoDocument) = true
  ∧ displayAuthNotification 1
      {[ "Todo" := [primaryKeyDirective; authDirective; modelDirective; authDirective] ]}
      (hasFieldAuthDirectives todoDocument) = false.
Proof. repeat split; vm_compute; reflexivity. Qed.

(** [auth] on a nullable field does not count, and neither does a
    non-null field without [auth]; [subscriptions: { level: off }]
    triggers like [subscriptions: null]. *)
Example predicates_on_variants :
  hasFieldAuthDirectives
    [NamedDefinition "Post" None
       (Some [{| field_name := "title"; field_type_kind := NamedType;
                 field_directives := Some [authDirective] |};
              {| field_name := "id"; field_type_kind := NonNullType;
                 field_directives := Some [] |}])] = ∅
  ∧ hasV2AuthDirectives 2
      [NamedDefinition "Post" None
         (Some [{| field_name := "title"; field_type_kind := NonNullType;
                   field_directives := Some [authDirective] |}])] = false
  ∧ displayAuthNotification 2
      {[ "Todo" := [{| dir_name := "model";
                       dir_arguments :=
                         Some [{| arg_name := "subscriptions";
                                  arg_value := ObjectValue [("level", EnumValue "off")] |}] |}] ]}
      {[ "Todo" ]} = true
  ∧ displayAuthNotification 2
      {[ "Todo" := [{| dir_name := "model";
                       dir_arguments :=
                         Some [{| arg_name := "subscriptions";
                                  arg_value := ObjectValue [("level", EnumValue "public")] |}] |}] ]}
      {[ "Todo" ]} = false.
Proof. repeat split; vm_compute; reflexivity. Qed.

(** The conditions of the three policies hold on the sample project. *)
Lemma todoProject_triggers answer :
  fieldAuthTrigger readSchema parse collectDirectivesByType (todoProject answer)
    "todoapi" todoApi
  ∧ listQueryTrigger readSchema parse (todoProject answer) "todoapi" todoApi
  ∧ securityTrigger readSchema collectDirectivesByTypeNames (todoProject answer)
      "todoapi" todoApi.
Proof.
  assert (∀ w, metaApi w = [("todoapi", "AppSync")] →
               Measures.firstAppSync w "todoapi" ∧ Measures.onlyAppSync w "todoapi")
    as Hfirst.
  { intros w Hmeta. split; exists [], []; rewrite Hmeta; repeat split; constructor. }
  destruct (Hfirst (todoProject answer) eq_refl) as [Hone Honly].
  split; [|split].
  - split; [reflexivity|]. split; [done|]. split; [reflexivity|].
    exists todoSchema,
      {[ "Todo" := [primaryKeyDirective; authDirective; modelDirective; authDirective] ]},
      todoDocument.
    repeat split; vm_compute; reflexivity.
  - split; [done|]. split; [reflexivity|].
    exists todoSchema, [("Query.listTodos.req.vtl", unguardedTemplate)], todoDocument.
    split; [reflexivity|]. split; [reflexivity|]. split; [|split; vm_compute; reflexivity].
    exists unguardedTemplate. split.
    + apply list_elem_of_In. vm_compute. by left.
    + apply test_fresh_unguarded. vm_compute. reflexivity.
  - split; [reflexivity|]. split; [done|]. split; [reflexivity|]. split; [reflexivity|].
    exists todoSchema, {[ "Todo" := ["primaryKey"; "auth"; "model"] ]}, "Todo",
      ["primaryKey"; "auth"; "model"].
    split; [reflexivity|]. split; [vm_compute; reflexivity|].
    split; [vm_compute; reflexivity|].
    split; apply list_elem_of_In; vm_compute; auto.
Qed.

(** The theorem of C1 at the sample project, the user declining: each
    policy emits one success event and the process exits with code 0;
    [modifyGraphQLSchema] is not called and the project is as it
    was. *)
Lemma decline_exits_before_modifyGraphQLSchema_witness :
  declined (start (todoProject false)) (run fieldAuth (todoProject false))
  ∧ declined (start (todoProject false)) (run listQuery (todoProject false))
  ∧ declined (start (todoProject false)) (run securityEnhancement (todoProject false)).
Proof.
  destruct (decline_exits_before_modifyGraphQLSchema readSchema parse
              collectDirectivesByType collectDirectivesByTypeNames
              (todoProject false) "todoapi" todoApi)
    as (Hfield & Hlist & Hsecurity & _).
  destruct (todoProject_triggers false) as (Tfield & Tlist & Tsecurity).
  split; [exact (Hfield Tfield)|]. split; [exact (Hlist Tlist)|exact (Hsecurity Tsecurity)].
Defined.

(** The runs in which the user declines, event by event. *)
Example decline_runs :
  run fieldAuth (todoProject false)
  = Exited 0 {| world := todoProject false; prompts := 1;
                events := [BlankLine; Prompt false; EmitSuccess; ExitOnNextTick 0] |}
  ∧ run listQuery (todoProject false)
    = Exited 0 {| world := todoProject false; prompts := 1;
                  events := [BlankLine; Prompt false; EmitSuccess; ExitOnNextTick 0] |}
  ∧ run securityEnhancement (todoProjectSplit false)
    = Exited 0 {| world := todoProjectSplit false; prompts := 1;
                  events := [BlankLine; Prompt false; EmitSuccess; ExitOnNextTick 0] |}.
Proof. repeat split; reflexivity. Qed.

(** The user agrees: the schema is touched once and the result is
    [true]. *)
Example agree_modifies_schema :
  returnValue (run fieldAuth (todoProject true)) = Some true
  ∧ events (outcomeProcess (run fieldAuth (todoProject true)))
    = [BlankLine; Prompt true; ModifyGraphQLSchema "todoapi"]
  ∧ returnValue (run listQuery (todoProject true)) = Some true
  ∧ schemaFile (directoryAt "todoapi" (outcomeProcess (run listQuery (todoProject true))))
    = Some (todoSchema ++ " ")
  ∧ schemaDirectory
      (directoryAt "todoapi" (outcomeProcess (run listQuery (todoProjectSplit true))))
    = Some [("todo.graphql", File (todoSchema ++ " "))].
Proof. repeat split; vm_compute; reflexivity. Qed.


(** The flag-gated policies called twice: one prompt, with or without
    [cli.json], which the first call creates. *)
Example flag_gated_policies_twice :
  returnValue (run (twice fieldAuth) (todoProject true)) = Some (true, false)
  ∧ prompts (outcomeProcess (run (twice fieldAuth) (todoProject true))) = 1%nat
  ∧ returnValue (run (twice fieldAuth) (todoProjectWithoutConfig true)) = Some (true, false)
  ∧ prompts (outcomeProcess (run (twice fieldAuth) (todoProjectWithoutConfig true)))
    = 1%nat
  ∧ getBoolean "showfieldauthnotification"
      (outcomeProcess (run fieldAuth (todoProjectWithoutConfig true)))
    = false
  ∧ prompts (outcomeProcess (run (twice securityEnhancement) (todoProject true)))
    = 1%nat.
Proof. repeat split; vm_compute; reflexivity. Qed.

(** C4, as stated, fails.  When the user declines the prompt the
    process exits with the flag still on, in [cli.json] and in the
    process.  And on a schema that is not GraphQL the call rejects,
    again with the flag still on. *)
Lemma security_flag_not_always_cleared :
  exitCode (run securityEnhancement (todoProject false)) = Some 0%Z
  ∧ getBoolean "securityEnhancementNotification"
      (outcomeProcess (run securityEnhancement (todoProject false)))
    = true
  ∧ cliJSON (world (outcomeProcess (run securityEnhancement (todoProject false))))
    = Some flagsOn
  ∧ thrownError (run securityEnhancement (brokenProject true)) = Some "Syntax Error"
  ∧ getBoolean "securityEnhancementNotification"
      (outcomeProcess (run securityEnhancement (brokenProject true)))
    = true
  ∧ cliJSON (world (outcomeProcess (run securityEnhancement (brokenProject true))))
    = Some flagsOn.
Proof. repeat split; vm_compute; reflexivity. Qed.

(** The theorem of C4 at the sample project, the user agreeing, and at
    the same project without [cli.json]. *)
Lemma notifySecurityEnhancement_clears_flag_witness :
  match run securityEnhancement (todoProjectWithoutConfig true) with
  | Returned _ p =>
      getBoolean "securityEnhancementNotification" p = false ∧
      ∃ config, cliJSON (world p) = Some config ∧
                config !! "securityEnhancementNotification" = Some false
  | Exited code p =>
      code = 0%Z ∧ world p = todoProjectWithoutConfig true ∧
      answers (todoProjectWithoutConfig true) 0%nat = false ∧
      ∃ name d,
        securityTrigger readSchema collectDirectivesByTypeNames
          (todoProjectWithoutConfig true) name d
  | Threw error p =>
      world p = todoProjectWithoutConfig true ∧
      ∃ name d,
        securityRejects readSchema collectDirectivesByTypeNames
          (todoProjectWithoutConfig true) name d error
  end.
Proof.
  apply (notifySecurityEnhancement_clears_flag readSchema collectDirectivesByTypeNames
           (todoProjectWithoutConfig true)).
  reflexivity.
Defined.

(** The theorem of C10 at the project with two AppSync APIs. *)
Lemma first_AppSync_api_is_used_witness :
  agreed None "todoapi" todoApi (start (twoApiProject true))
    true (run listQuery (twoApiProject true))
  ∧ agreed (Some "showfieldauthnotification") "todoapi" todoApi
      (start (twoApiProject true)) true (run fieldAuth (twoApiProject true))
  ∧ quietly (Some "securityEnhancementNotification") (start (twoApiProject true)) tt
      (run securityEnhancement (twoApiProject true)).
Proof.
  destruct (first_AppSync_api_is_used readSchema parse collectDirectivesByType
              collectDirectivesByTypeNames (twoApiProject true) []
              [("restapi", "API Gateway"); ("otherapi", "AppSync")] "todoapi" todoApi)
    as ((_ & Hlist) & (_ & Hfield) & Hsecurity).
  - reflexivity.
  - constructor.
  - reflexivity.
  - destruct (todoProject_triggers true) as (Tfield & Tlist & _).
    assert (∀ w, metaApi w = metaApi (twoApiProject true) →
                 Measures.firstAppSync w "todoapi") as Hfirst.
    { intros w Hmeta. exists [], [("restapi", "API Gateway"); ("otherapi", "AppSync")].
      split; [done|constructor]. }
    split; [|split].
    + apply Hlist. split; [by apply Hfirst|]. split; [reflexivity|].
      by destruct Tlist as (_ & _ & Hrest).
    + apply Hfield. split; [reflexivity|]. split; [by apply Hfirst|].
      split; [reflexivity|]. by destruct Tfield as (_ & _ & _ & Hrest).
    + apply Hsecurity; [|reflexivity].
      exists ("otherapi", "AppSync"). split; [|done].
      apply elem_of_cons. right. apply elem_of_cons. by left.
Defined.

(** With two AppSync APIs the first two policies prompt for, and touch,
    the first API; the third only clears its flag. *)
Example two_apis :
  events (outcomeProcess (run fieldAuth (twoApiProject true)))
  = [BlankLine; Prompt true; ModifyGraphQLSchema "todoapi"]
  ∧ events (outcomeProcess (run listQuery (twoApiProject true)))
    = [BlankLine; Prompt true; ModifyGraphQLSchema "todoapi"]
  ∧ events (outcomeProcess (run securityEnhancement (twoApiProject true))) = []
  ∧ getBoolean "securityEnhancementNotification"
      (outcomeProcess (run securityEnhancement (twoApiProject true))) = false.
Proof. repeat split; vm_compute; reflexivity. Qed.

(** A schema that is not GraphQL: the policies that read it reject, and
    the list-query policy does so only because a template is
    unguarded. *)
Example broken_schema_rejects :
  run fieldAuth (brokenProject true) = Threw "Syntax Error" (start (brokenProject true))
  ∧ run listQuery (brokenProject true) = Threw "Syntax Error" (start (brokenProject true))
  ∧ run securityEnhancement (brokenProject true)
    = Threw "Syntax Error" (start (brokenProject true)).
Proof. repeat split; reflexivity. Qed.

(** C3.  Two list request templates whose filter assignment has no
    guard: each of them matches the pattern when tested on its own, but
    the filter keeps the first only.  The match in the first template
    leaves [lastIndex] at its end (line 93 gives the pattern the [g]
    flag), the search in the second starts there, past its assignment,
    finds nothing and resets [lastIndex]. *)
Example second_unguarded_template_is_missed :
  resolversToCheck [("Query.listTodos.req.vtl", unguardedTemplate);
                    ("Query.listPosts.req.vtl", unguardedPostTemplate)]
  = [unguardedTemplate; unguardedPostTemplate]
  ∧ test listQueryPattern 0 unguardedTemplate = (true, 125%nat)
  ∧ test listQueryPattern 0 unguardedPostTemplate = (true, 123%nat)
  ∧ test listQueryPattern 125 unguardedPostTemplate = (false, 0%nat)
  ∧ resolversToSecure [("Query.listTodos.req.vtl", unguardedTemplate);
                       ("Query.listPosts.req.vtl", unguardedPostTemplate)]
    = [unguardedTemplate].
Proof. repeat split; vm_compute; reflexivity. Qed.

(** A guarded template is not reported; the name filter keeps list
    request templates only. *)
Example guarded_template_is_excluded :
  test listQueryPattern 0 guardedTemplate = (false, 0%nat)
  ∧ resolversToSecure [("Query.listTodos.req.vtl", guardedTemplate);
                       ("Query.getTodo.req.vtl", unguardedTemplate);
                       ("Query.listTodos.res.vtl", unguardedTemplate);
                       ("Query.listPosts.req.vtl", unguardedTemplate)]
    = [unguardedTemplate].
Proof. repeat split; vm_compute; reflexivity. Qed.

End SampleRuns.

(** * Further properties *)

Section StringFacts.

Lemma append_assoc (a b c : string) : (a ++ b) ++ c = a ++ (b ++ c).
Proof.
  induction a as [|x a IH].
  - reflexivity.
  - change (String x (((a ++ b) ++ c)) = String x (a ++ (b ++ c))). by rewrite IH.
Qed.

Lemma length_append (a b : string) :
  String.length (a ++ b) = (String.length a + String.length b)%nat.
Proof.
  induction a as [|x a IH].
  - reflexivity.
  - change (S (String.length (a ++ b)) = S (String.length a + String.length b)).
    by rewrite IH.
Qed.

End StringFacts.

Section MoreDirectiveFacts.
Import Ast Directives.

Lemma hasFieldAuthDirectives_elem (doc : DocumentNode) typeName :
  typeName ∈ hasFieldAuthDirectives doc ↔
  ∃ def field, def ∈ doc ∧ def_name def = Some typeName ∧
               field ∈ orEmpty (def_fields def) ∧ fieldWithAuth field = true.
Proof.
  unfold hasFieldAuthDirectives. rewrite hasFieldAuthDirectives_fold.
  split; [|by right]. intros [Hemp|H]; [|done]. by apply not_elem_of_empty in Hemp.
Qed.

(** The two predicates over a document that is the concatenation of
    two: the field-auth types are the union, the type-level answer is
    the disjunction.  So the order of the definitions, and the way a
    schema is split into files, make no difference. *)
Theorem directive_predicates_of_concatenation (version : Z) (doc1 doc2 : DocumentNode) :
  hasFieldAuthDirectives (doc1 ++ doc2)%list
  = hasFieldAuthDirectives doc1 ∪ hasFieldAuthDirectives doc2
  ∧ hasV2AuthDirectives version (doc1 ++ doc2)%list
    = hasV2AuthDirectives version doc1 || hasV2AuthDirectives version doc2.
Proof.
  split.
  - apply set_eq. intros typeName.
    rewrite elem_of_union, !hasFieldAuthDirectives_elem. split.
    + intros (def & f & [Hin|Hin]%elem_of_app & H); [left|right]; by exists def, f.
    + intros [(def & f & Hin & H)|(def & f & Hin & H)]; exists def, f;
        (split; [apply elem_of_app; auto|done]).
  - rewrite !hasV2AuthDirectives_unfold, existsb_app.
    by destruct (existsb _ doc1), (existsb _ doc2), (version =? 2)%Z.
Qed.

(** The trigger of the field-auth policy, as the policy calls it, on
    the field-auth types of the document: it holds exactly when the
    version is 2 and one type is both a key of the directive map whose
    [model] directive turns subscriptions off and, in the document, the
    name of a definition with a non-null field carrying [auth]. *)
Theorem displayAuthNotification_of_document (version : Z)
    (directiveMap : gmap string (list DirectiveNode)) (doc : DocumentNode) :
  displayAuthNotification version directiveMap (hasFieldAuthDirectives doc) = true ↔
  version = 2%Z ∧
  ∃ typeName typeObj def field dir,
    directiveMap !! typeName = Some typeObj ∧
    subscriptionOff typeObj = true ∧
    def ∈ doc ∧ def_name def = Some typeName ∧
    field ∈ orEmpty (def_fields def) ∧
    field_type_kind field = NonNullType ∧
    dir ∈ orEmpty (field_directives field) ∧ dir_name dir = "auth".
Proof.
  unfold displayAuthNotification. rewrite andb_true_iff, Z.eqb_eq, existsb_exists.
  split.
  - intros [([typeName typeObj] & Hin & H) Hversion]. split; [done|].
    apply andb_true_iff in H as [Hoff Hmem].
    apply bool_decide_eq_true, hasFieldAuthDirectives_elem in Hmem
      as (def & field & Hdef & Hname & Hfield & Hq).
    apply fieldWithAuth_true in Hq as (Hkind & dir & Hdir & Hauth).
    apply list_elem_of_In, elem_of_map_to_list in Hin.
    exists typeName, typeObj, def, field, dir. done.
  - intros [Hversion (typeName & typeObj & def & field & dir & Hlook & Hoff & Hdef & Hname
                      & Hfield & Hkind & Hdir & Hauth)].
    split; [|done]. exists (typeName, typeObj). split.
    + by apply list_elem_of_In, elem_of_map_to_list.
    + apply andb_true_iff. split; [done|].
      apply bool_decide_eq_true, hasFieldAuthDirectives_elem.
      exists def, field. split; [done|]. split; [done|]. split; [done|].
      apply fieldWithAuth_true. split; [done|]. by exists dir.
Qed.

End MoreDirectiveFacts.

Section MoreDetectorFacts.
Import Resolvers Measures.

Lemma suffixFrom_split lastIndex code rest :
  suffixFrom lastIndex code = Some rest → ∃ skipped, code = skipped ++ rest.
Proof.
  revert code. induction lastIndex as [|n IH]; intros code; cbn [suffixFrom].
  - intros [= ->]. by exists "".
  - destruct code as [|c code]; [discriminate|].
    intros [skipped ->]%IH. by exists (String c skipped).
Qed.

(** Whatever [lastIndex] is, a positive [test] has found an unguarded
    assignment in the text. *)
Lemma test_true_unguarded lastIndex code :
  fst (test listQueryPattern lastIndex code) = true → unguarded code.
Proof.
  unfold test. destruct (suffixFrom lastIndex code) as [suffix|] eqn:Hsuffix; [|done].
  apply suffixFrom_split in Hsuffix as [skipped ->].
  pose proof (execFrom_found suffix lastIndex) as Hfound.
  destruct (execFrom listQueryPattern suffix lastIndex); [|done].
  intros _. destruct (proj1 Hfound eq_refl) as (before & rest & -> & Hguard).
  exists (skipped ++ before), rest. by rewrite append_assoc.
Qed.

Lemma filterTest_sound lastIndex codes :
  filterTest listQueryPattern lastIndex codes `sublist_of` codes
  ∧ Forall unguarded (filterTest listQueryPattern lastIndex codes).
Proof.
  revert lastIndex. induction codes as [|code codes IH]; intros lastIndex;
    cbn [filterTest].
  - split; constructor.
  - pose proof (test_true_unguarded lastIndex code) as Htrue.
    destruct (test listQueryPattern lastIndex code) as [[] lastIndex'];
      destruct (IH lastIndex') as [Hsub Hall]; cbn [fst] in Htrue.
    + split; [by apply sublist_skip|]. apply Forall_cons. auto.
    + split; [by apply sublist_cons|done].
Qed.

(** No false alarm: the templates reported as unsafe are, in their
    order, some of the list request templates, and each of them holds
    an unguarded filter assignment; the [lastIndex] carried from one
    test to the next can hide a template but never reports a guarded
    one. *)
Theorem resolversToSecure_sound (resolvers : list (string * string)) :
  resolversToSecure resolvers `sublist_of` resolversToCheck resolvers
  ∧ Forall unguarded (resolversToSecure resolvers).
Proof. apply filterTest_sound. Qed.

Lemma filterTest_first re codes :
  match List.find (fun code => fst (test re 0 code)) codes with
  | Some code => ∃ others, filterTest re 0 codes = code :: others
  | None => filterTest re 0 codes = []
  end.
Proof.
  induction codes as [|code codes IH]; cbn [filterTest List.find]; [done|].
  pose proof (test_false_resets re 0 code) as Hreset.
  destruct (test re 0 code) as [[] lastIndex]; cbn [fst snd] in *.
  - by eexists.
  - by rewrite Hreset.
Qed.

(** The first list request template, in the order of [Object.entries],
    that matches the pattern when tested on its own is always the first
    template reported; when none matches, nothing is reported. *)
Theorem resolversToSecure_first (resolvers : list (string * string)) :
  match List.find (fun code => fst (test listQueryPattern 0 code))
                  (resolversToCheck resolvers) with
  | Some code => unguarded code ∧ ∃ others, resolversToSecure resolvers = code :: others
  | None => resolversToSecure resolvers = []
  end.
Proof.
  unfold resolversToSecure.
  pose proof (filterTest_first listQueryPattern (resolversToCheck resolvers)) as Hfirst.
  destruct (List.find _ (resolversToCheck resolvers)) as [code|] eqn:Hfind; [|done].
  split; [|done]. apply find_some in Hfind as [_ Hmatch].
  by apply (test_true_unguarded 0).
Qed.

End MoreDetectorFacts.

Section MoreSchemaTouchFacts.
Import Fs Measures.

Lemma modifyGraphQLSchemaDirectory_unfold files :
  shapeOf (Directory (fst (modifyGraphQLSchemaDirectory files))) = shapeOf (Directory files)
  ∧ if snd (modifyGraphQLSchemaDirectory files)
    then firstVisibleTouched (filesIn files)
                             (filesIn (fst (modifyGraphQLSchemaDirectory files)))
    else fst (modifyGraphQLSchemaDirectory files) = files ∧ noVisibleFile (filesIn files).
Proof.
  destruct (modifyGraphQLSchemaDirectory_spec files) as [Hshape Hfiles].
  simpl in Hshape, Hfiles. split; [done|].
  destruct (snd (modifyGraphQLSchemaDirectory files)); [done|].
  destruct Hfiles as [[= ->] Hnone]. done.
Qed.

Lemma textLength_touched before after :
  firstVisibleTouched before after →
  sum_list_with (fun pc => String.length (snd pc)) after
  = S (sum_list_with (fun pc => String.length (snd pc)) before).
Proof.
  intros (l1 & path & content & l2 & -> & -> & _).
  rewrite !sum_list_with_app. cbn [sum_list_with snd].
  rewrite length_append. cbn [String.length]. lia.
Qed.

(** The walk of the schema directory answers [true] exactly when the
    tree holds a plain file that no hidden name leads to or names (in
    particular [false] for an empty directory and for one with hidden
    entries only), and the text below the directory grows by exactly
    one character then, and not at all otherwise. *)
Theorem modifyGraphQLSchemaDirectory_answer (files : list (string * Node)) :
  (snd (modifyGraphQLSchemaDirectory files) = true ↔
   ∃ path content, (path, content) ∈ filesIn files ∧ visiblePath path = true)
  ∧ textLength (fst (modifyGraphQLSchemaDirectory files))
    = (textLength files + if snd (modifyGraphQLSchemaDirectory files) then 1 else 0)%nat.
Proof.
  destruct (modifyGraphQLSchemaDirectory_unfold files) as [_ Hfiles].
  destruct (snd (modifyGraphQLSchemaDirectory files)).
  - split.
    + split; [intros _|done].
      destruct Hfiles as (l1 & path & content & l2 & -> & _ & Hvisible & _).
      exists path, content. split; [|done]. apply elem_of_app. right. left.
    + unfold textLength. rewrite (textLength_touched _ _ Hfiles). lia.
  - destruct Hfiles as [-> Hnone]. split; [|unfold textLength; lia].
    split; [discriminate|]. intros (path & content & Hin & Hvisible).
    unfold noVisibleFile in Hnone. rewrite Forall_forall in Hnone.
    specialize (Hnone _ Hin). simpl in Hnone. congruence.
Qed.

Lemma first_split_unique {A} (Q : A → Prop) (l1 l1' l2 l2' : list A) x x' :
  (l1 ++ x :: l2 = l1' ++ x' :: l2')%list →
  Forall (fun y => ¬ Q y) l1 → Q x → Forall (fun y => ¬ Q y) l1' → Q x' →
  l1 = l1' ∧ x = x' ∧ l2 = l2'.
Proof.
  revert l1'. induction l1 as [|y l1 IH]; intros [|y' l1'] Heq H1 Hx H1' Hx';
    simpl in Heq.
  - by injection Heq as -> ->.
  - injection Heq as -> _. apply Forall_cons in H1' as [Hy _]. done.
  - injection Heq as -> _. apply Forall_cons in H1 as [Hy _]. done.
  - injection Heq as -> Heq. apply Forall_cons in H1 as [_ H1].
    apply Forall_cons in H1' as [_ H1'].
    destruct (IH l1' Heq H1 Hx H1' Hx') as (-> & -> & ->). done.
Qed.

(** A second walk touches the file the first walk touched: it gives the
    same answer, and after a positive answer the first plain file with
    a visible path, in depth-first order, has its second blank while no
    other file has changed. *)
Theorem modifyGraphQLSchemaDirectory_again (files : list (string * Node)) :
  snd (modifyGraphQLSchemaDirectory (fst (modifyGraphQLSchemaDirectory files)))
  = snd (modifyGraphQLSchemaDirectory files)
  ∧ if snd (modifyGraphQLSchemaDirectory files)
    then ∃ l1 path content l2,
           filesIn files = (l1 ++ (path, content) :: l2)%list ∧
           visiblePath path = true ∧
           Forall (fun pc => visiblePath (fst pc) = false) l1 ∧
           filesIn (fst (modifyGraphQLSchemaDirectory
                           (fst (modifyGraphQLSchemaDirectory files))))
           = (l1 ++ (path, ((content ++ " ") ++ " ")%string) :: l2)%list
    else fst (modifyGraphQLSchemaDirectory (fst (modifyGraphQLSchemaDirectory files)))
         = files.
Proof.
  destruct (modifyGraphQLSchemaDirectory_unfold files) as [_ Hfirst].
  destruct (snd (modifyGraphQLSchemaDirectory files)) eqn:Hanswer.
  - destruct Hfirst as (l1 & path & content & l2 & Hbefore & Hafter & Hvisible & Hhidden).
    destruct (modifyGraphQLSchemaDirectory_unfold
                (fst (modifyGraphQLSchemaDirectory files))) as [_ Hsecond].
    destruct (snd (modifyGraphQLSchemaDirectory (fst (modifyGraphQLSchemaDirectory files)))).
    + split; [done|].
      destruct Hsecond as (l1' & path' & content' & l2' & Hbefore' & Hafter' & Hvisible' & Hhidden').
      rewrite Hafter in Hbefore'.
      destruct (first_split_unique (fun pc => visiblePath (fst pc) = true)
                  l1 l1' l2 l2' _ _ Hbefore') as (<- & [= <- <-] & <-); try done.
      * eapply Forall_impl; [exact Hhidden|]. simpl. intros pc H. by rewrite H.
      * eapply Forall_impl; [exact Hhidden'|]. simpl. intros pc H. by rewrite H.
      * by exists l1, path, content, l2.
    + exfalso. destruct Hsecond as [_ Hnone]. rewrite Hafter in Hnone.
      unfold noVisibleFile in Hnone. apply Forall_app in Hnone as [_ Hnone].
      apply Forall_cons in Hnone as [Hnone _]. simpl in Hnone. congruence.
  - destruct Hfirst as [Hsame _]. rewrite Hsame. by rewrite Hanswer, Hsame.
Qed.

End MoreSchemaTouchFacts.

